(** * ExchangeOs: the matching engine, its order book and its balance ledger

    A shallow embedding of [engine/src/trade/Orderbook.ts] and
    [engine/src/trade/Engine.ts], with the invariants of the book
    (ordering, no crossing, depth agreement), the maker-price rule,
    self-trade prevention, the ledger laws and the snapshot round trip. *)

From Stdlib Require Import ZArith Lia List String Ascii Bool.

From stdpp Require Import gmap strings list fin_maps sorting.

Local Open Scope Z_scope.

(** ** Decimal arithmetic *)

(** Modelled from the spec: [engine/src/utils/decimal.ts] is not among the
    sources.  The spec makes every operation exact and every decimal text
    canonical, so that two texts are equal exactly when their values are;
    a decimal is modelled by an integer and the operations by the exact
    integer ones. *)
Module Decimal.
Definition add (a b : Z) : Z := a + b.
Definition subtract (a b : Z) : Z := a - b.
Definition multiply (a b : Z) : Z := a * b.
Definition min (a b : Z) : Z := Z.min a b.
Definition isGreaterOrEqual (a b : Z) : bool := b <=? a.
Definition isLessOrEqual (a b : Z) : bool := a <=? b.
Definition isGreater (a b : Z) : bool := b <? a.
Definition isLess (a b : Z) : bool := a <? b.
Definition isZero (a : Z) : bool := a =? 0.
Definition isEqual (a b : Z) : bool := a =? b.
End Decimal.

Import Decimal.

(** ** Orders, fills and results ([Orderbook.ts]) *)

Inductive Side := buy | sell.

#[global] Instance Side_eq_dec : EqDecision Side.
Proof. solve_decision. Defined.

Record Order := mkOrder {
  price : Z;
  quantity : Z;
  orderId : string;
  filled : Z;
  side : Side;
  userId : string
}.

Record Fill := mkFill {
  fill_price : Z;
  qty : Z;
  tradeId : Z;
  otherUserId : string;
  markerOrderId : string
}.

Inductive SelfTradePreventionMode := CANCEL_NEWEST | CANCEL_OLDEST | CANCEL_BOTH.

Inductive Status := ACCEPTED | REJECTED | PARTIALLY_FILLED.

Record AddOrderResult := mkResult {
  status : Status;
  executedQty : Z;
  fills : list Fill;
  rejectionReason : option string;
  cancelledOrders : option (list string)
}.

(** The book: the two arrays, the counters and the two cached depth maps
    (JavaScript [Map]s keyed by the price text). *)
Record Orderbook := mkBook {
  bids : list Order;
  asks : list Order;
  baseAsset : string;
  quoteAsset : string;
  lastTradeId : Z;
  currentPrice : Z;
  stpMode : SelfTradePreventionMode;
  bidsDepth : gmap Z Z;
  asksDepth : gmap Z Z
}.

Definition BASE_CURRENCY : string := "INR".

Definition set_bids (l : list Order) (ob : Orderbook) : Orderbook :=
  mkBook l (asks ob) (baseAsset ob) (quoteAsset ob) (lastTradeId ob)
    (currentPrice ob) (stpMode ob) (bidsDepth ob) (asksDepth ob).

Definition set_asks (l : list Order) (ob : Orderbook) : Orderbook :=
  mkBook (bids ob) l (baseAsset ob) (quoteAsset ob) (lastTradeId ob)
    (currentPrice ob) (stpMode ob) (bidsDepth ob) (asksDepth ob).

Definition set_filled (f : Z) (o : Order) : Order :=
  mkOrder (price o) (quantity o) (orderId o) f (side o) (userId o).

Definition remaining (o : Order) : Z := subtract (quantity o) (filled o).

(** [updateDepth]: add [delta] to the level; a level that is not positive
    any more is deleted. *)
Definition updateDepthMap (m : gmap Z Z) (p delta : Z) : gmap Z Z :=
  let current := default 0 (m !! p) in
  let newValue := add current delta in
  if isLessOrEqual newValue 0 then delete p m else <[p := newValue]> m.

Definition updateDepth (sd : Side) (p delta : Z) (ob : Orderbook) : Orderbook :=
  match sd with
  | buy =>
      mkBook (bids ob) (asks ob) (baseAsset ob) (quoteAsset ob) (lastTradeId ob)
        (currentPrice ob) (stpMode ob) (updateDepthMap (bidsDepth ob) p delta)
        (asksDepth ob)
  | sell =>
      mkBook (bids ob) (asks ob) (baseAsset ob) (quoteAsset ob) (lastTradeId ob)
        (currentPrice ob) (stpMode ob) (bidsDepth ob)
        (updateDepthMap (asksDepth ob) p delta)
  end.

(** [rebuildDepthCache]: one pass over an array, no deletion. *)
Definition rebuildDepth (l : list Order) : gmap Z Z :=
  fold_left (fun m o => <[price o := add (default 0 (m !! price o)) (remaining o)]> m)
    l ∅.

(** [sortOrders]: [Array.prototype.sort] is stable; [before a b] is the
    comparator answering -1. *)
Fixpoint insert_stable (before : Order -> Order -> bool) (x : Order)
    (l : list Order) : list Order :=
  match l with
  | [] => [x]
  | y :: t => if before y x then y :: insert_stable before x t else x :: y :: t
  end.

Definition stable_sort (before : Order -> Order -> bool) (l : list Order) : list Order :=
  foldr (insert_stable before) [] l.

Definition bid_before (a b : Order) : bool := isGreater (price a) (price b).

Definition ask_before (a b : Order) : bool := isLess (price a) (price b).

(** The constructor: the quote asset is always [BASE_CURRENCY]; both arrays
    are sorted and the depth caches rebuilt. *)
Definition newOrderbook (base : string) (bs asks_ : list Order) (ltid cur : Z)
    (stp : SelfTradePreventionMode) : Orderbook :=
  let bs' := stable_sort bid_before bs in
  let as' := stable_sort ask_before asks_ in
  mkBook bs' as' base BASE_CURRENCY ltid cur stp (rebuildDepth bs') (rebuildDepth as').

Definition ticker (ob : Orderbook) : string :=
  (baseAsset ob ++ "_" ++ quoteAsset ob)%string.

(** [findInsertIndex]: the binary search.  Indices are array indices, on
    which [>>> 1] is halving; the loop runs at most [length arr] times. *)
Definition shouldGoLeft (sd : Side) (p : Z) (o : Order) : bool :=
  match sd with
  | buy => isGreater p (price o)
  | sell => isLess p (price o)
  end.

Fixpoint findInsertIndex_loop (fuel : nat) (arr : list Order) (p : Z) (sd : Side)
    (low high : nat) : nat :=
  match fuel with
  | O => low
  | S fuel' =>
      if (low <? high)%nat then
        let mid := Nat.div2 (low + high) in
        match arr !! mid with
        | Some o =>
            if shouldGoLeft sd p o
            then findInsertIndex_loop fuel' arr p sd low mid
            else findInsertIndex_loop fuel' arr p sd (mid + 1)%nat high
        | None => low
        end
      else low
  end.

Definition findInsertIndex (arr : list Order) (p : Z) (sd : Side) : nat :=
  findInsertIndex_loop (length arr) arr p sd 0%nat (length arr).

(** [arr.splice(index, 0, order)] *)
Definition splice_in (i : nat) (o : Order) (arr : list Order) : list Order :=
  take i arr ++ o :: drop i arr.

(** [isMatchable] / [pricesCross]: does the resting order cross the
    incoming one? *)
Definition pricesCross (sd : Side) (incoming maker : Order) : bool :=
  match sd with
  | buy => isLessOrEqual (price maker) (price incoming)
  | sell => isGreaterOrEqual (price maker) (price incoming)
  end.

Definition oppositeBook (sd : Side) (ob : Orderbook) : list Order :=
  match sd with buy => asks ob | sell => bids ob end.

(** [wouldSelfTrade]: the own orders among the crossing head of the
    opposite side. *)
Fixpoint conflictingOrders (order : Order) (book : list Order) : list Order :=
  match book with
  | [] => []
  | restingOrder :: rest =>
      if pricesCross (side order) order restingOrder then
        if decide (userId restingOrder = userId order)
        then restingOrder :: conflictingOrders order rest
        else conflictingOrders order rest
      else []
  end.

Definition wouldSelfTrade (order : Order) (ob : Orderbook) : bool * list Order :=
  let c := conflictingOrders order (oppositeBook (side order) ob) in
  ((0 <? length c)%nat, c).

(** [findIndex(x => x.orderId === id)] followed by [splice(index, 1)]. *)
Fixpoint find_by_id (id : string) (l : list Order) : option Order :=
  match l with
  | [] => None
  | x :: t => if decide (orderId x = id) then Some x else find_by_id id t
  end.

Fixpoint remove_by_id (id : string) (l : list Order) : list Order :=
  match l with
  | [] => []
  | x :: t => if decide (orderId x = id) then t else x :: remove_by_id id t
  end.

Definition cancelBid (order : Order) (ob : Orderbook) : Orderbook * option Z :=
  match find_by_id (orderId order) (bids ob) with
  | Some cancelledOrder =>
      let p := price cancelledOrder in
      let ob1 := updateDepth buy p (subtract 0 (remaining cancelledOrder)) ob in
      (set_bids (remove_by_id (orderId order) (bids ob1)) ob1, Some p)
  | None => (ob, None)
  end.

Definition cancelAsk (order : Order) (ob : Orderbook) : Orderbook * option Z :=
  match find_by_id (orderId order) (asks ob) with
  | Some cancelledOrder =>
      let p := price cancelledOrder in
      let ob1 := updateDepth sell p (subtract 0 (remaining cancelledOrder)) ob in
      (set_asks (remove_by_id (orderId order) (asks ob1)) ob1, Some p)
  | None => (ob, None)
  end.

Definition otherSide (sd : Side) : Side :=
  match sd with buy => sell | sell => buy end.

Definition bump (p : Z) (ob : Orderbook) : Orderbook :=
  mkBook (bids ob) (asks ob) (baseAsset ob) (quoteAsset ob) (lastTradeId ob + 1)
    p (stpMode ob) (bidsDepth ob) (asksDepth ob).

(** The loop of [matchOrder].  The index [i] only moves forward and the
    elements before it are final, so the walk is a recursion on the part of
    the array from [i] on: a removed maker ([splice(i, 1)]) is dropped, a
    kept or skipped one ([i++]) is put back in front of the walked rest.
    [ob] carries the fields of [this] that the loop writes (depth maps,
    [lastTradeId], [currentPrice]). *)
Fixpoint matchLoop (incomingOrder : Order) (sd : Side) (book : list Order)
    (ob : Orderbook) (fs : list Fill) (executed qtyToFill : Z)
    : list Order * Orderbook * list Fill * Z :=
  match book with
  | [] => ([], ob, fs, executed)
  | makerOrder :: rest =>
      if isGreater qtyToFill 0 then
        if pricesCross sd incomingOrder makerOrder then
          if decide (userId makerOrder = userId incomingOrder) then
            let '(rest', ob', fs', ex') :=
              matchLoop incomingOrder sd rest ob fs executed qtyToFill in
            (makerOrder :: rest', ob', fs', ex')
          else
            let remainingMaker := subtract (quantity makerOrder) (filled makerOrder) in
            let fillQty := min qtyToFill remainingMaker in
            let executed1 := add executed fillQty in
            let qtyToFill1 := subtract qtyToFill fillQty in
            let makerOrder1 := set_filled (add (filled makerOrder) fillQty) makerOrder in
            let ob1 := updateDepth (otherSide sd) (price makerOrder1)
                         (subtract 0 fillQty) ob in
            let f := mkFill (price makerOrder1) fillQty (lastTradeId ob1)
                       (userId makerOrder1) (orderId makerOrder1) in
            let ob2 := bump (price makerOrder1) ob1 in
            if isEqual (filled makerOrder1) (quantity makerOrder1) then
              matchLoop incomingOrder sd rest ob2 (fs ++ [f]) executed1 qtyToFill1
            else
              let '(rest', ob', fs', ex') :=
                matchLoop incomingOrder sd rest ob2 (fs ++ [f]) executed1 qtyToFill1 in
              (makerOrder1 :: rest', ob', fs', ex')
        else (book, ob, fs, executed)
      else (book, ob, fs, executed)
  end.

Definition matchOrder (incomingOrder : Order) (sd : Side) (ob : Orderbook)
    : Orderbook * list Fill * Z :=
  let '(book', ob', fs, ex) :=
    matchLoop incomingOrder sd (oppositeBook sd ob) ob [] 0 (quantity incomingOrder) in
  (match sd with buy => set_asks book' ob' | sell => set_bids book' ob' end, fs, ex).

Definition cancelConflict (ob : Orderbook) (conflict : Order) : Orderbook :=
  match side conflict with
  | buy => fst (cancelBid conflict ob)
  | sell => fst (cancelAsk conflict ob)
  end.

(** The matching and resting part of [addOrder] (steps 2 to 4). *)
Definition placeOrder (order : Order) (ob : Orderbook) : Orderbook * AddOrderResult :=
  let '(ob1, fs, ex) := matchOrder order (side order) ob in
  let order1 := set_filled ex order in
  if isLess (filled order1) (quantity order1) then
    let rem := subtract (quantity order1) (filled order1) in
    let ob2 :=
      match side order1 with
      | buy =>
          let index := findInsertIndex (bids ob1) (price order1) buy in
          updateDepth buy (price order1) rem
            (set_bids (splice_in index order1 (bids ob1)) ob1)
      | sell =>
          let index := findInsertIndex (asks ob1) (price order1) sell in
          updateDepth sell (price order1) rem
            (set_asks (splice_in index order1 (asks ob1)) ob1)
      end in
    (ob2, mkResult (if isGreater ex 0 then PARTIALLY_FILLED else ACCEPTED) ex fs None None)
  else
    (ob1, mkResult ACCEPTED ex fs None None).

Definition addOrder (order : Order) (ob : Orderbook) : Orderbook * AddOrderResult :=
  let '(wst, conflicts) := wouldSelfTrade order ob in
  if wst then
    match stpMode ob with
    | CANCEL_NEWEST =>
        (ob, mkResult REJECTED 0 [] (Some "STP: Cancel Newest"%string) None)
    | CANCEL_BOTH =>
        (fold_left cancelConflict conflicts ob,
         mkResult REJECTED 0 [] (Some "STP: Cancel Both"%string)
           (Some (map orderId conflicts)))
    | CANCEL_OLDEST =>
        placeOrder order (fold_left cancelConflict conflicts ob)
    end
  else placeOrder order ob.

Definition getOpenOrders (u : string) (ob : Orderbook) : list Order :=
  List.filter (fun x => bool_decide (userId x = u)) (asks ob)
  ++ List.filter (fun x => bool_decide (userId x = u)) (bids ob).

Definition getDepthAtPrice (sd : Side) (p : Z) (ob : Orderbook) : Z :=
  default 0 ((match sd with buy => bidsDepth ob | sell => asksDepth ob end) !! p).

(** ** The engine ([Engine.ts]): ledger and dispatcher *)

Record Balance := mkBalance {
  available : Z;
  locked : Z
}.

(** [balances : Map<string, UserBalance>], a [UserBalance] being an object
    keyed by the asset. *)
Record Engine := mkEngine {
  orderbooks : list Orderbook;
  balances : gmap string (gmap string Balance)
}.

(** What a call can throw.  [TypeError] is the JavaScript error of reading
    or writing a field of a missing ([undefined]) asset entry. *)
Inductive EngineError :=
| NoOrderbookFound
| UserNotFound
| InsufficientFunds
| InsufficientBalance (avail : Z)
| NoOrderFound
| OrderRejected (reason : string)
| TypeError.

Definition errorMessage (e : EngineError) : string :=
  match e with
  | NoOrderbookFound => "No orderbook found"
  | UserNotFound => "User not found"
  | InsufficientFunds => "Insufficient funds"
  | InsufficientBalance _ => "Insufficient balance. Available: "
  | NoOrderFound => "No order found"
  | OrderRejected reason => reason
  | TypeError => "Cannot read properties of undefined"
  end.

(** [String.prototype.includes] *)
Fixpoint includes (hay needle : string) : bool :=
  String.prefix needle hay
  || match hay with
     | EmptyString => false
     | String _ rest => includes rest needle
     end.

(** [String.prototype.split("_")] *)
Fixpoint split_underscore (s : string) : list string :=
  match s with
  | EmptyString => [EmptyString]
  | String c rest =>
      if Ascii.eqb c "_"%char then EmptyString :: split_underscore rest
      else match split_underscore rest with
           | h :: t => String c h :: t
           | [] => [String c EmptyString]
           end
  end.

(** [market.split("_")[i]]; a missing component is [undefined], which as a
    property key reads as the text "undefined". *)
Definition market_part (i : nat) (market : string) : string :=
  nth i (split_underscore market) "undefined"%string.

(** The result messages of [MessageToApi]. *)
Inductive MessageToApi :=
| DEPTH (bids_ asks_ : list (Z * Z))
| ORDER_PLACED (orderId_ : string) (executedQty_ : Z) (fills_ : list Fill)
| ORDER_CANCELLED (orderId_ : string) (executedQty_ remainingQty_ : Z)
| OPEN_ORDERS (payload : list Order)
| BALANCE (payload : gmap string Balance)
| ON_RAMP_SUCCESS (userId_ : string) (amount newBalance : Z)
| WITHDRAW_SUCCESS (userId_ : string) (amount newBalance : Z) (txnId : string)
| WITHDRAW_FAILED (error : EngineError)
| ORDER_REJECTED (orderId_ : string) (executedQty_ remainingQty_ : Z)
    (reason : string) (code : string).

(** The commands of [MessageFromApi]. *)
Inductive MessageFromApi :=
| CREATE_ORDER (market : string) (price_ quantity_ : Z) (side_ : Side) (userId_ : string)
| CANCEL_ORDER (orderId_ market : string)
| ON_RAMP (userId_ : string) (amount : Z) (txnId : string)
| GET_DEPTH (market : string)
| GET_OPEN_ORDERS (userId_ market : string)
| GET_BALANCE (userId_ : string)
| WITHDRAW (userId_ : string) (amount : Z) (txnId : string).

(** *** Ledger steps: a mutation of the ledger that may throw, keeping what
    it has written so far *)

Definition Step : Type :=
  gmap string (gmap string Balance) -> gmap string (gmap string Balance) * option EngineError.

Definition step_then (s1 s2 : Step) : Step :=
  fun bal => match s1 bal with
             | (bal1, None) => s2 bal1
             | (bal1, Some e) => (bal1, Some e)
             end.

Definition step_skip : Step := fun bal => (bal, None).

(** [balance[asset].field = f(balance[asset].field)] on the object of user
    [u]; throws when the asset entry is missing. *)
Definition modify (u a : string) (f : Balance -> Balance) : Step :=
  fun bal =>
    match bal !! u with
    | Some ub =>
        match ub !! a with
        | Some b => (<[u := <[a := f b]> ub]> bal, None)
        | None => (bal, Some TypeError)
        end
    | None => (bal, Some TypeError)
    end.

(** [const b = this.balances.get(u); if (b) { ... }] *)
Definition when_user (u : string) (s : Step) : Step :=
  fun bal => match bal !! u with Some _ => s bal | None => (bal, None) end.

Definition add_available (v : Z) (b : Balance) : Balance :=
  mkBalance (add (available b) v) (locked b).

Definition sub_available (v : Z) (b : Balance) : Balance :=
  mkBalance (subtract (available b) v) (locked b).

Definition add_locked (v : Z) (b : Balance) : Balance :=
  mkBalance (available b) (add (locked b) v).

Definition sub_locked (v : Z) (b : Balance) : Balance :=
  mkBalance (available b) (subtract (locked b) v).

(** One iteration of the [forEach] of [updateBalance]. *)
Definition settleFill (u base quote : string) (sd : Side) (fill : Fill) : Step :=
  let fillValue := multiply (qty fill) (fill_price fill) in
  match sd with
  | buy =>
      step_then
        (when_user (otherUserId fill)
           (step_then (modify (otherUserId fill) quote (add_available fillValue))
                      (modify (otherUserId fill) base (sub_locked (qty fill)))))
        (when_user u
           (step_then (modify u quote (sub_locked fillValue))
                      (modify u base (add_available (qty fill)))))
  | sell =>
      step_then
        (when_user (otherUserId fill)
           (step_then (modify (otherUserId fill) quote (sub_locked fillValue))
                      (modify (otherUserId fill) base (add_available (qty fill)))))
        (when_user u
           (step_then (modify u quote (add_available fillValue))
                      (modify u base (sub_locked (qty fill)))))
  end.

Definition updateBalance (u base quote : string) (sd : Side) (fs : list Fill) : Step :=
  foldr (fun fill rest => step_then (settleFill u base quote sd fill) rest) step_skip fs.

Definition availableOr0 (ub : gmap string Balance) (a : string) : Z :=
  match ub !! a with Some b => available b | None => 0 end.

Definition lockAsset (u a : string) (required : Z) (ub : gmap string Balance) : Step :=
  let avail := availableOr0 ub a in
  if isLess avail required then fun bal => (bal, Some InsufficientFunds)
  else modify u a (fun b => mkBalance (subtract avail required) (add (locked b) required)).

Definition checkAndLockFunds (base quote : string) (sd : Side) (u : string)
    (p q : Z) : Step :=
  fun bal =>
    match bal !! u with
    | None => (bal, Some UserNotFound)
    | Some userBalance =>
        match sd with
        | buy => lockAsset u quote (multiply q p) userBalance bal
        | sell => lockAsset u base q userBalance bal
        end
    end.

Definition unlockFunds (base quote : string) (sd : Side) (u : string) (p q : Z) : Step :=
  when_user u
    (match sd with
     | buy =>
         let amount := multiply q p in
         step_then (modify u quote (sub_locked amount)) (modify u quote (add_available amount))
     | sell =>
         step_then (modify u base (sub_locked q)) (modify u base (add_available q))
     end).

Definition onRamp (u : string) (amount : Z)
    (bal : gmap string (gmap string Balance)) : gmap string (gmap string Balance) :=
  match bal !! u with
  | None => <[u := {[BASE_CURRENCY := mkBalance amount 0]}]> bal
  | Some ub =>
      let ub1 := match ub !! BASE_CURRENCY with
                 | Some _ => ub
                 | None => <[BASE_CURRENCY := mkBalance 0 0]> ub
                 end in
      <[u := <[BASE_CURRENCY := add_available amount
                                  (default (mkBalance 0 0) (ub1 !! BASE_CURRENCY))]> ub1]> bal
  end.

Definition withdraw (u : string) (amount : Z)
    (bal : gmap string (gmap string Balance))
    : gmap string (gmap string Balance) * (EngineError + Z) :=
  match bal !! u with
  | None => (bal, inl UserNotFound)
  | Some ub =>
      match ub !! BASE_CURRENCY with
      | None => (bal, inl UserNotFound)
      | Some b =>
          if isLess (available b) amount
          then (bal, inl (InsufficientBalance (available b)))
          else (<[u := <[BASE_CURRENCY := sub_available amount b]> ub]> bal,
                inr (subtract (available b) amount))
      end
  end.

(** [setBaseBalances] *)
Definition seedBalance : gmap string Balance :=
  <["TATA"%string := mkBalance 1000 0]> {[BASE_CURRENCY := mkBalance 1000000 0]}.

Definition baseBalances : gmap string (gmap string Balance) :=
  <["5"%string := seedBalance]> (<["2"%string := seedBalance]> {["1"%string := seedBalance]}).

(** [new Engine()] without a snapshot. *)
Definition freshEngine : Engine :=
  mkEngine [newOrderbook "TATA" [] [] 0 0 CANCEL_NEWEST] baseBalances.

(** *** The dispatcher *)

(** [this.orderbooks.find(o => o.ticker() === market)]; the book found is
    mutated in place, which [replace_orderbook] writes back. *)
Fixpoint find_orderbook (market : string) (l : list Orderbook) : option Orderbook :=
  match l with
  | [] => None
  | ob :: rest => if decide (ticker ob = market) then Some ob else find_orderbook market rest
  end.

Fixpoint replace_orderbook (market : string) (ob' : Orderbook) (l : list Orderbook)
    : list Orderbook :=
  match l with
  | [] => []
  | ob :: rest =>
      if decide (ticker ob = market) then ob' :: rest
      else ob :: replace_orderbook market ob' rest
  end.

(** [getDepth]: the positive levels, bids from the highest price, asks from
    the lowest. *)
Fixpoint insert_level (before : Z -> Z -> bool) (x : Z * Z) (l : list (Z * Z)) : list (Z * Z) :=
  match l with
  | [] => [x]
  | y :: t => if before x.1 y.1 then x :: y :: t else y :: insert_level before x t
  end.

Definition sort_levels (before : Z -> Z -> bool) (l : list (Z * Z)) : list (Z * Z) :=
  foldr (insert_level before) [] l.

Definition positive_levels (m : gmap Z Z) : list (Z * Z) :=
  List.filter (fun e => isGreater e.2 0) (map_to_list m).

Definition getDepth (ob : Orderbook) : list (Z * Z) * list (Z * Z) :=
  (sort_levels isGreater (positive_levels (bidsDepth ob)),
   sort_levels isLess (positive_levels (asksDepth ob))).

(** [createOrder]: the identifier of the new order is drawn at random by the
    code; here it is the argument [newId].  An exception leaves the engine as
    mutated so far. *)
Definition createOrder (e : Engine) (newId market : string) (p q : Z) (sd : Side)
    (u : string) : Engine * (EngineError + (Z * list Fill * string)) :=
  let baseAsset_ := market_part 0 market in
  let quoteAsset_ := market_part 1 market in
  match find_orderbook market (orderbooks e) with
  | None => (e, inl NoOrderbookFound)
  | Some orderbook =>
      match checkAndLockFunds baseAsset_ quoteAsset_ sd u p q (balances e) with
      | (bal1, Some err) => (mkEngine (orderbooks e) bal1, inl err)
      | (bal1, None) =>
          let order := mkOrder p q newId 0 sd u in
          let '(orderbook1, result) := addOrder order orderbook in
          let obs1 := replace_orderbook market orderbook1 (orderbooks e) in
          match status result with
          | REJECTED =>
              match unlockFunds baseAsset_ quoteAsset_ sd u p q bal1 with
              | (bal2, Some err) => (mkEngine obs1 bal2, inl err)
              | (bal2, None) =>
                  (mkEngine obs1 bal2,
                   inl (OrderRejected
                          (default "Order rejected due to self-trade prevention"%string
                             (rejectionReason result))))
              end
          | _ =>
              match updateBalance u baseAsset_ quoteAsset_ sd (fills result) bal1 with
              | (bal2, Some err) => (mkEngine obs1 bal2, inl err)
              | (bal2, None) =>
                  (mkEngine obs1 bal2, inr (executedQty result, fills result, newId))
              end
          end
      end
  end.

Definition find_order (id : string) (ob : Orderbook) : option Order :=
  match find_by_id id (asks ob) with
  | Some o => Some o
  | None => find_by_id id (bids ob)
  end.

(** The [CANCEL_ORDER] case; [None] stands for the exception that the
    [catch] only logs. *)
Definition cancelOrder (e : Engine) (id market : string) : option (Engine * MessageToApi) :=
  let baseAsset_ := market_part 0 market in
  let quoteAsset_ := market_part 1 market in
  match find_orderbook market (orderbooks e) with
  | None => None
  | Some cancelOrderbook =>
      match find_order id cancelOrderbook with
      | None => None
      | Some order =>
          let '(ob1, asset, leftQuantity) :=
            match side order with
            | buy =>
                ((cancelBid order cancelOrderbook).1, quoteAsset_,
                 multiply (subtract (quantity order) (filled order)) (price order))
            | sell =>
                ((cancelAsk order cancelOrderbook).1, baseAsset_,
                 subtract (quantity order) (filled order))
            end in
          let bal1 :=
            match balances e !! userId order with
            | Some ub =>
                match ub !! asset with
                | Some b =>
                    <[userId order :=
                        <[asset := mkBalance (add (available b) leftQuantity)
                                     (subtract (locked b) leftQuantity)]> ub]> (balances e)
                | None => balances e
                end
            | None => balances e
            end in
          Some (mkEngine (replace_orderbook market ob1 (orderbooks e)) bal1,
                ORDER_CANCELLED id 0 0)
      end
  end.

(** [process]: the new engine and the messages sent to the requesting
    client with [sendToApi], in order.  The broadcasts and the persistence
    queue ([publishMessage], [pushMessage]) only read the state and are left
    out. *)
Definition process (e : Engine) (newId : string) (message : MessageFromApi)
    : Engine * list MessageToApi :=
  match message with
  | CREATE_ORDER market p q sd u =>
      match createOrder e newId market p q sd u with
      | (e1, inr (executedQty_, fills_, orderId_)) =>
          (e1, [ORDER_PLACED orderId_ executedQty_ fills_])
      | (e1, inl err) =>
          let errorMessage_ := errorMessage err in
          let isSelfTradeRejection := includes errorMessage_ "SELF_TRADE_PREVENTION" in
          (e1, [ORDER_REJECTED "" 0 0 errorMessage_
                  (if isSelfTradeRejection then "SELF_TRADE" else "ORDER_FAILED")])
      end
  | CANCEL_ORDER id market =>
      match cancelOrder e id market with
      | Some (e1, msg) => (e1, [msg])
      | None => (e, [])
      end
  | GET_OPEN_ORDERS u market =>
      match find_orderbook market (orderbooks e) with
      | Some openOrderbook => (e, [OPEN_ORDERS (getOpenOrders u openOrderbook)])
      | None => (e, [])
      end
  | ON_RAMP u amount _ =>
      let bal1 := onRamp u amount (balances e) in
      (mkEngine (orderbooks e) bal1,
       [ON_RAMP_SUCCESS u amount
          (match bal1 !! u with
           | Some ub => availableOr0 ub BASE_CURRENCY
           | None => 0
           end)])
  | WITHDRAW u amount txnId =>
      match withdraw u amount (balances e) with
      | (bal1, inr newBalance) =>
          (mkEngine (orderbooks e) bal1, [WITHDRAW_SUCCESS u amount newBalance txnId])
      | (bal1, inl err) => (mkEngine (orderbooks e) bal1, [WITHDRAW_FAILED err])
      end
  | GET_DEPTH market =>
      match find_orderbook market (orderbooks e) with
      | Some orderbook => let '(b, a) := getDepth orderbook in (e, [DEPTH b a])
      | None => (e, [DEPTH [] []])
      end
  | GET_BALANCE u =>
      (e, [BALANCE (default ∅ (balances e !! u))])
  end.

(** A run of the engine: each command comes with the identifier drawn for
    it; the results are collected in order. *)
Fixpoint run (e : Engine) (cmds : list (string * MessageFromApi))
    : Engine * list (list MessageToApi) :=
  match cmds with
  | [] => (e, [])
  | (newId, m) :: rest =>
      let '(e1, out) := process e newId m in
      let '(e2, outs) := run e1 rest in
      (e2, out :: outs)
  end.

(** *** Snapshots *)






(** ** Scenarios of the specification on the book *)

Definition emptyBook : Orderbook := newOrderbook "TATA" [] [] 0 0 CANCEL_NEWEST.

(** ** Reasoning about the matching loop *)

Definition fillQtyOf (q : Z) (m : Order) : Z := min q (remaining m).

Definition filledMaker (q : Z) (m : Order) : Order :=
  set_filled (add (filled m) (fillQtyOf q m)) m.

Definition obAfterFill (sd : Side) (q : Z) (m : Order) (ob : Orderbook) : Orderbook :=
  bump (price m) (updateDepth (otherSide sd) (price m) (subtract 0 (fillQtyOf q m)) ob).

Definition fillOf (q : Z) (m : Order) (ob : Orderbook) : Fill :=
  mkFill (price m) (fillQtyOf q m) (lastTradeId ob) (userId m) (orderId m).

Definition cons_book (m : Order) (r : list Order * Orderbook * list Fill * Z)
    : list Order * Orderbook * list Fill * Z :=
  let '(rest', ob', fs', ex') := r in (m :: rest', ob', fs', ex').

(** ** The invariants of the book *)

(** [le_side ms p q]: on the side [ms] of the book, price [p] is at least as
    good as [q] (bids: higher first; asks: lower first). *)
Definition le_side (ms : Side) (p q : Z) : Prop :=
  match ms with buy => q <= p | sell => p <= q end.

Definition book_sorted (ms : Side) (l : list Order) : Prop :=
  StronglySorted (fun a b => le_side ms (price a) (price b)) l.

Definition no_crossing (bs as_ : list Order) : Prop :=
  match bs, as_ with
  | b :: _, a :: _ => price b < price a
  | _, _ => True
  end.

Definition resting_ok (o : Order) : Prop := 0 <= filled o < quantity o.

Fixpoint level_sum (p : Z) (l : list Order) : Z :=
  match l with
  | [] => 0
  | o :: t => (if decide (price o = p) then remaining o else 0) + level_sum p t
  end.

(** The cached map holds exactly the positive aggregates. *)
Definition depth_agrees (m : gmap Z Z) (l : list Order) : Prop :=
  forall p, m !! p = if decide (0 < level_sum p l) then Some (level_sum p l) else None.

Record book_inv (ob : Orderbook) : Prop := {
  inv_bids_sorted : book_sorted buy (bids ob);
  inv_asks_sorted : book_sorted sell (asks ob);
  inv_no_crossing : no_crossing (bids ob) (asks ob);
  inv_bids_ok : Forall resting_ok (bids ob);
  inv_asks_ok : Forall resting_ok (asks ob);
  inv_bids_side : Forall (fun o => side o = buy) (bids ob);
  inv_asks_side : Forall (fun o => side o = sell) (asks ob);
  inv_bids_depth : depth_agrees (bidsDepth ob) (bids ob);
  inv_asks_depth : depth_agrees (asksDepth ob) (asks ob)
}.

(** The part of an order that matching never changes. *)
Definition okey (o : Order) : Z * Z * string * Side * string :=
  (price o, quantity o, orderId o, side o, userId o).

(** *** What the matching loop leaves behind *)

Definition res_book (r : list Order * Orderbook * list Fill * Z) : list Order := r.1.1.1.

Definition res_ob (r : list Order * Orderbook * list Fill * Z) : Orderbook := r.1.1.2.

Definition res_fills (r : list Order * Orderbook * list Fill * Z) : list Fill := r.1.2.

Definition res_ex (r : list Order * Orderbook * list Fill * Z) : Z := r.2.

Definition depthOf (ms : Side) (ob : Orderbook) : gmap Z Z :=
  match ms with buy => bidsDepth ob | sell => asksDepth ob end.

Definition sum_qty (fs : list Fill) : Z := foldr (fun f a => qty f + a) 0 fs.

(** A fill is made against a crossing resting order of another user, at that
    order's price and for at most what it has left. *)
Definition fill_of_maker (inc : Order) (sd : Side) (book : list Order) (f : Fill) : Prop :=
  exists m, m ∈ book /\ fill_price f = price m /\ otherUserId f = userId m
    /\ markerOrderId f = orderId m /\ pricesCross sd inc m = true
    /\ userId m <> userId inc /\ 0 < qty f <= remaining m.

(** No resting order of the incoming user crosses the incoming price. *)
Definition no_self_cross (o : Order) (book : list Order) : Prop :=
  Forall (fun m => pricesCross (side o) o m = true -> userId m <> userId o) book.

Definition ownBook (sd : Side) (ob : Orderbook) : list Order :=
  match sd with buy => bids ob | sell => asks ob end.

(** *** Order identifiers *)

Definition all_ids (ob : Orderbook) : list string := orderId <$> (bids ob ++ asks ob).

Definition ids_unique (ob : Orderbook) : Prop := NoDup (all_ids ob).

Definition remove_all (cs l : list Order) : list Order :=
  fold_left (fun l c => remove_by_id (orderId c) l) cs l.

(** ** Sequences of book operations *)

Inductive BookOp :=
| OpAddOrder (o : Order)
| OpCancelBid (o : Order)
| OpCancelAsk (o : Order).

Definition applyOp (ob : Orderbook) (op : BookOp) : Orderbook :=
  match op with
  | OpAddOrder o => (addOrder o ob).1
  | OpCancelBid o => (cancelBid o ob).1
  | OpCancelAsk o => (cancelAsk o ob).1
  end.

(** Incoming orders carry identifiers that no resting order has. *)
Fixpoint fresh_ids (ob : Orderbook) (ops : list BookOp) : Prop :=
  match ops with
  | [] => True
  | op :: rest =>
      match op with
      | OpAddOrder o => orderId o ∉ all_ids ob
      | _ => True
      end /\ fresh_ids (applyOp ob op) rest
  end.

Definition well_formed (ob : Orderbook) : Prop := book_inv ob /\ ids_unique ob.

(** *** Fills and makers, without any assumption on the book *)

Definition priced_by_maker (book : list Order) (f : Fill) : Prop :=
  exists m, m ∈ book /\ markerOrderId f = orderId m /\ otherUserId f = userId m
            /\ fill_price f = price m.

Definition sample_ops : list BookOp :=
  [OpAddOrder (mkOrder 1002 2 "a" 0 buy "1");
   OpAddOrder (mkOrder 1005 5 "b" 0 sell "2");
   OpAddOrder (mkOrder 1001 3 "c" 0 buy "3");
   OpAddOrder (mkOrder 1001 4 "d" 0 sell "2");
   OpCancelAsk (mkOrder 1005 5 "b" 0 sell "2");
   OpCancelBid (mkOrder 1001 3 "c" 1 buy "3")].

Definition sweep_book : Orderbook :=
  fold_left applyOp
    [OpAddOrder (mkOrder 100 5 "s1" 0 sell "2");
     OpAddOrder (mkOrder 102 5 "s2" 0 sell "3");
     OpAddOrder (mkOrder 101 5 "s3" 0 sell "5")] emptyBook.

Definition sweep_order : Order := mkOrder 105 12 "t" 0 buy "1".

(** ** The ledger: observations and effects *)

Definition entry (bal : gmap string (gmap string Balance)) (w a : string) : option Balance :=
  match bal !! w with Some ub => ub !! a | None => None end.


Definition lk (bal : gmap string (gmap string Balance)) (w a : string) : Z :=
  match entry bal w a with Some b => locked b | None => 0 end.



(** How a function on balances moves the two components. *)
Record shifts (f : Balance -> Balance) (da dl : Z) : Prop := {
  shift_av : forall b, available (f b) = available b + da;
  shift_lk : forall b, locked (f b) = locked b + dl
}.


(** *** Settlement *)








Fixpoint sum_fills (g : Fill -> Z) (fs : list Fill) : Z :=
  match fs with
  | [] => 0
  | f :: rest => g f + sum_fills g rest
  end.


(** *** Locking and unlocking *)



(** ** The engine: reachable states *)







(** ** Who rests on the book *)

Definition resting (ob : Orderbook) : list Order := bids ob ++ asks ob.

(** ** Conservation of assets *)
















(** ** Locked quote funds and what they back *)



(** The quote value that the resting orders of user [u] in a sequence still
    await: remaining quantity times price. *)
Fixpoint reserved (u : string) (l : list Order) : Z :=
  match l with
  | [] => 0
  | o :: t => (if decide (userId o = u) then remaining o * price o else 0) + reserved u t
  end.

Definition maker_value (u : string) (f : Fill) : Z :=
  if decide (otherUserId f = u) then qty f * fill_price f else 0.

(** *** The stranded part of the locked quote funds *)










(** ** Definitions for the further properties *)

(** ** Sample books for the further properties *)

Definition priority_bids : list Order :=
  [mkOrder 1002 2 "a" 0 buy "1"; mkOrder 1001 3 "b" 0 buy "2";
   mkOrder 1001 1 "c" 0 buy "3"; mkOrder 1000 5 "d" 0 buy "1"].

Definition cancel_sample_book : Orderbook := fold_left applyOp (take 4 sample_ops) emptyBook.

Definition resting_sample_order : Order := mkOrder 999 2 "z" 0 buy "7".

(** The comparator of [sortOrders] for a side. *)
Definition side_before (ms : Side) : Order -> Order -> bool :=
  match ms with buy => bid_before | sell => ask_before end.



Definition two_asks : list Order :=
  [mkOrder 1000 5 "a" 0 sell "1"; mkOrder 1001 5 "b" 0 sell "2"].

Definition both_book : Orderbook := newOrderbook "TATA" [] two_asks 0 0 CANCEL_BOTH.


Definition own_cross_order : Order := mkOrder 1001 7 "n" 0 buy "1".


Definition withdraw_cmds : list (string * MessageFromApi) :=
  [("a"%string, CREATE_ORDER "TATA_INR" 100 10 sell "2");
   ("w"%string, WITHDRAW "1" 999000 "t1")].



(** ** Locked funds and what backs them, for every asset *)














(** * Theorems *)

Ltac dec_unfold :=
  unfold add, subtract, multiply, min, isGreaterOrEqual, isLessOrEqual,
    isGreater, isLess, isZero, isEqual in *.

(** ** A scenario of the specification on the book *)

Example S3_price_time_across_levels :
  let b1 := fst (addOrder (mkOrder 1002 2 "a" 0 buy "1") emptyBook) in
  let b2 := fst (addOrder (mkOrder 1000 5 "c" 0 buy "3") b1) in
  let b3 := fst (addOrder (mkOrder 1001 3 "b" 0 buy "2") b2) in
  let '(b4, r) := addOrder (mkOrder 1000 6 "s" 0 sell "9") b3 in
  map (fun f => (fill_price f, qty f)) (fills r) = [(1002, 2); (1001, 3); (1000, 1)]
  /\ executedQty r = 6
  /\ map filled (bids b4) = [1]
  /\ getDepthAtPrice buy 1000 b4 = 4
  /\ asks b4 = [].
Proof. vm_compute. repeat split; reflexivity. Qed.

(** ** The matching loop *)

Section MatchLoopInd.
Variables (inc : Order) (sd : Side).
Variable P : list Order -> Orderbook -> list Fill -> Z -> Z ->
             list Order * Orderbook * list Fill * Z -> Prop.

Hypothesis Hnil : forall ob fs ex q, P [] ob fs ex q ([], ob, fs, ex).
Hypothesis Hdone : forall m rest ob fs ex q,
  q <= 0 -> P (m :: rest) ob fs ex q (m :: rest, ob, fs, ex).
Hypothesis Hnocross : forall m rest ob fs ex q,
  0 < q -> pricesCross sd inc m = false ->
  P (m :: rest) ob fs ex q (m :: rest, ob, fs, ex).
Hypothesis Hskip : forall m rest ob fs ex q,
  0 < q -> pricesCross sd inc m = true -> userId m = userId inc ->
  P rest ob fs ex q (matchLoop inc sd rest ob fs ex q) ->
  P (m :: rest) ob fs ex q (cons_book m (matchLoop inc sd rest ob fs ex q)).
Hypothesis Hremove : forall m rest ob fs ex q,
  0 < q -> pricesCross sd inc m = true -> userId m <> userId inc ->
  filled (filledMaker q m) = quantity m ->
  let r := matchLoop inc sd rest (obAfterFill sd q m ob) (fs ++ [fillOf q m ob])
             (ex + fillQtyOf q m) (q - fillQtyOf q m) in
  P rest (obAfterFill sd q m ob) (fs ++ [fillOf q m ob])
    (ex + fillQtyOf q m) (q - fillQtyOf q m) r ->
  P (m :: rest) ob fs ex q r.
Hypothesis Hkeep : forall m rest ob fs ex q,
  0 < q -> pricesCross sd inc m = true -> userId m <> userId inc ->
  filled (filledMaker q m) <> quantity m ->
  let r := matchLoop inc sd rest (obAfterFill sd q m ob) (fs ++ [fillOf q m ob])
             (ex + fillQtyOf q m) (q - fillQtyOf q m) in
  P rest (obAfterFill sd q m ob) (fs ++ [fillOf q m ob])
    (ex + fillQtyOf q m) (q - fillQtyOf q m) r ->
  P (m :: rest) ob fs ex q (cons_book (filledMaker q m) r).

Lemma matchLoop_elim : forall book ob fs ex q,
  P book ob fs ex q (matchLoop inc sd book ob fs ex q).
Proof.
  induction book as [|m rest IH]; intros ob fs ex q; simpl.
  - apply Hnil.
  - unfold isGreater. destruct (Z.ltb_spec 0 q) as [Hq|Hq]; [|now apply Hdone].
    destruct (pricesCross sd inc m) eqn:Hc; [|now apply Hnocross].
    destruct (decide (userId m = userId inc)) as [Hu|Hu].
    + specialize (IH ob fs ex q).
      pose proof (Hskip m rest ob fs ex q Hq Hc Hu IH) as H.
      unfold cons_book in H.
      destruct (matchLoop inc sd rest ob fs ex q) as [[[? ?] ?] ?]. exact H.
    + assert (Hl : forall d, lastTradeId (updateDepth (otherSide sd) (price m) d ob)
                       = lastTradeId ob) by (intros d; now destruct sd).
      rewrite Hl.
      change (matchLoop inc sd rest _ _ _ _)
        with (matchLoop inc sd rest (obAfterFill sd q m ob) (fs ++ [fillOf q m ob])
                (ex + fillQtyOf q m) (q - fillQtyOf q m)).
      change (set_filled _ m) with (filledMaker q m).
      unfold isEqual.
      destruct (Z.eqb_spec (add (filled m) (min q (subtract (quantity m) (filled m))))
                  (quantity m)) as [He|He].
      * apply (Hremove m rest ob fs ex q Hq Hc Hu He). apply IH.
      * pose proof (Hkeep m rest ob fs ex q Hq Hc Hu He
                      (IH (obAfterFill sd q m ob) (fs ++ [fillOf q m ob])
                         (ex + fillQtyOf q m) (q - fillQtyOf q m))) as H.
        unfold cons_book in H.
        destruct (matchLoop inc sd rest (obAfterFill sd q m ob) (fs ++ [fillOf q m ob])
                    (ex + fillQtyOf q m) (q - fillQtyOf q m)) as [[[? ?] ?] ?].
        exact H.
Qed.
End MatchLoopInd.

(** ** The invariants of the book *)

Instance le_side_trans ms : Transitive (le_side ms).
Proof. intros a b c; destruct ms; simpl; lia. Qed.

Lemma le_side_refl ms p : le_side ms p p.
Proof. destruct ms; simpl; lia. Qed.

Lemma book_sorted_cons ms x l :
  book_sorted ms (x :: l) <->
  Forall (fun y => le_side ms (price x) (price y)) l /\ book_sorted ms l.
Proof.
  unfold book_sorted. split.
  - intros H. inversion H; subst. auto.
  - intros [H1 H2]. now constructor.
Qed.

Lemma sublist_keys_Forall (P : Z * Z * string * Side * string -> Prop) l' l :
  sublist (okey <$> l') (okey <$> l) ->
  Forall (fun o => P (okey o)) l -> Forall (fun o => P (okey o)) l'.
Proof.
  intros Hs Hl.
  assert (H : Forall P (okey <$> l)) by (apply (Forall_fmap okey); exact Hl).
  assert (H' : Forall P (okey <$> l')).
  { rewrite Forall_forall in H |- *. intros x Hx. apply H.
    eapply elem_of_sublist; eauto. }
  exact (proj1 (Forall_fmap okey P l') H').
Qed.

Lemma sublist_keys_sorted ms l' l :
  sublist (okey <$> l') (okey <$> l) -> book_sorted ms l -> book_sorted ms l'.
Proof.
  revert l'. induction l as [|x l IH]; intros l' Hs Hl.
  - simpl in Hs. apply sublist_nil_r in Hs. destruct l'; [constructor|discriminate].
  - apply book_sorted_cons in Hl as [Hx Hl].
    destruct l' as [|y l']; [constructor|].
    simpl in Hs. inversion Hs as [| ? ? ? Hs' | ? ? ? Hs']; subst.
    + apply book_sorted_cons. split.
      * assert (Hp : price y = price x) by (unfold okey in *; congruence).
        rewrite Hp.
        apply (sublist_keys_Forall (fun k => le_side ms (price x) (fst (fst (fst (fst k))))) l' l);
          auto.
      * apply IH; auto.
    + apply IH; auto.
Qed.

Lemma no_crossing_all bs as_ :
  book_sorted buy bs -> book_sorted sell as_ ->
  (no_crossing bs as_ <->
   forall b a, b ∈ bs -> a ∈ as_ -> price b < price a).
Proof.
  intros Hb Ha. split.
  - intros Hn b a Hib Hia.
    destruct bs as [|b0 bs]; [inversion Hib|].
    destruct as_ as [|a0 as_]; [inversion Hia|].
    simpl in Hn.
    apply book_sorted_cons in Hb as [Hb _]. apply book_sorted_cons in Ha as [Ha _].
    rewrite Forall_forall in Hb, Ha.
    assert (price b <= price b0).
    { apply elem_of_cons in Hib as [->|Hib]; [lia|]. apply (Hb b Hib). }
    assert (price a0 <= price a).
    { apply elem_of_cons in Hia as [->|Hia]; [lia|]. apply (Ha a Hia). }
    lia.
  - intros H. destruct bs as [|b0 bs]; [exact I|].
    destruct as_ as [|a0 as_]; [exact I|].
    simpl. apply H; left.
Qed.

Lemma level_sum_app p l1 l2 : level_sum p (l1 ++ l2) = level_sum p l1 + level_sum p l2.
Proof. induction l1 as [|x l1 IH]; simpl; [reflexivity|]. rewrite IH. lia. Qed.

Lemma level_sum_nonneg p l : Forall resting_ok l -> 0 <= level_sum p l.
Proof.
  induction 1 as [|x l Hx Hl IH]; simpl; [lia|].
  unfold resting_ok, remaining, subtract in *. case_decide; lia.
Qed.

Lemma level_sum_pos p l x :
  Forall resting_ok l -> x ∈ l -> price x = p -> 0 < level_sum p l.
Proof.
  induction 1 as [|y l Hy Hl IH]; intros Hin Hp; [inversion Hin|].
  simpl. pose proof (level_sum_nonneg p l Hl).
  apply elem_of_cons in Hin as [->|Hin].
  - rewrite decide_True by done. unfold resting_ok, remaining, subtract in *. lia.
  - specialize (IH Hin Hp). unfold resting_ok, remaining, subtract in *.
    case_decide; lia.
Qed.

(** The effect of [updateDepth] on a map that agrees with a sequence. *)
Lemma updateDepthMap_agrees m l l' p delta :
  depth_agrees m l -> 0 <= level_sum p l ->
  level_sum p l' = level_sum p l + delta ->
  (forall q, q <> p -> level_sum q l' = level_sum q l) ->
  depth_agrees (updateDepthMap m p delta) l'.
Proof.
  intros Hm Hnn Hp Hq q. unfold updateDepthMap.
  assert (Hcur : default 0 (m !! p) = level_sum p l).
  { rewrite (Hm p). case_decide; simpl; lia. }
  rewrite Hcur. unfold isLessOrEqual, add.
  destruct (Z.leb_spec (level_sum p l + delta) 0) as [Hle|Hgt].
  - destruct (decide (q = p)) as [->|Hne].
    + rewrite lookup_delete_eq, Hp. rewrite decide_False by lia. reflexivity.
    + rewrite lookup_delete_ne by done. rewrite (Hq q Hne). apply Hm.
  - destruct (decide (q = p)) as [->|Hne].
    + rewrite lookup_insert_eq, Hp. rewrite decide_True by lia. reflexivity.
    + rewrite lookup_insert_ne by done. rewrite (Hq q Hne). apply Hm.
Qed.


Lemma cons_book_book m r : res_book (cons_book m r) = m :: res_book r.
Proof. now destruct r as [[[? ?] ?] ?]. Qed.

Lemma cons_book_ob m r : res_ob (cons_book m r) = res_ob r.
Proof. now destruct r as [[[? ?] ?] ?]. Qed.

Lemma cons_book_fills m r : res_fills (cons_book m r) = res_fills r.
Proof. now destruct r as [[[? ?] ?] ?]. Qed.

Lemma cons_book_ex m r : res_ex (cons_book m r) = res_ex r.
Proof. now destruct r as [[[? ?] ?] ?]. Qed.

Ltac res_simpl :=
  repeat match goal with r := matchLoop _ _ _ _ _ _ _ |- _ => subst r end;
  rewrite ?cons_book_book, ?cons_book_ob, ?cons_book_fills, ?cons_book_ex in *;
  unfold res_book, res_ob, res_fills, res_ex in *; simpl in *.

Lemma okey_filledMaker q m : okey (filledMaker q m) = okey m.
Proof. reflexivity. Qed.

Lemma filledMaker_remove q m :
  0 < q -> resting_ok m -> filled (filledMaker q m) = quantity m ->
  fillQtyOf q m = remaining m /\ remaining m <= q.
Proof.
  unfold filledMaker, fillQtyOf, resting_ok, remaining. simpl. dec_unfold. lia.
Qed.

Lemma filledMaker_keep q m :
  0 < q -> resting_ok m -> filled (filledMaker q m) <> quantity m ->
  fillQtyOf q m = q /\ q < remaining m /\ resting_ok (filledMaker q m)
  /\ remaining (filledMaker q m) = remaining m - q.
Proof.
  unfold filledMaker, fillQtyOf, resting_ok, remaining. simpl. dec_unfold. lia.
Qed.

Lemma matchLoop_keys inc sd book ob fs ex q :
  sublist (okey <$> res_book (matchLoop inc sd book ob fs ex q)) (okey <$> book).
Proof.
  apply (matchLoop_elim inc sd
           (fun book _ _ _ _ r => sublist (okey <$> res_book r) (okey <$> book)));
    clear; intros; res_simpl; try reflexivity.
  - now apply sublist_skip.
  - now apply sublist_cons.
  - now apply sublist_skip.
Qed.

Lemma matchLoop_resting_ok inc sd book ob fs ex q :
  Forall resting_ok book ->
  Forall resting_ok (res_book (matchLoop inc sd book ob fs ex q)).
Proof.
  apply (matchLoop_elim inc sd
           (fun book _ _ _ _ r => Forall resting_ok book -> Forall resting_ok (res_book r)));
    clear; intros; res_simpl; auto.
  - inversion H3; subst. constructor; auto.
  - inversion H4; subst. auto.
  - inversion H4; subst. constructor; auto.
    now apply filledMaker_keep.
Qed.

(** The executed quantity grows by at most the quantity still wanted. *)
Lemma matchLoop_executed_bounds inc sd book ob fs ex q :
  Forall resting_ok book ->
  ex <= res_ex (matchLoop inc sd book ob fs ex q) <= ex + Z.max q 0.
Proof.
  apply (matchLoop_elim inc sd
           (fun book _ _ ex q r => Forall resting_ok book ->
              ex <= res_ex r <= ex + Z.max q 0));
    clear; intros; res_simpl; try lia.
  - inversion H3; subst. specialize (H2 H7). lia.
  - inversion H4; subst.
    destruct (filledMaker_remove q m H H7 H2) as [Hf Hle].
    specialize (H3 H8). unfold resting_ok, remaining, subtract in *. lia.
  - inversion H4; subst.
    destruct (filledMaker_keep q m H H7 H2) as (Hf & Hlt & _).
    specialize (H3 H8). lia.
Qed.

(** When the taker is not exhausted the walk has stopped in front of a
    resting order that does not cross, or at the end of the side. *)
Lemma matchLoop_stops inc sd book ob fs ex q :
  Forall resting_ok book ->
  Forall (fun m => pricesCross sd inc m = true -> userId m <> userId inc) book ->
  res_ex (matchLoop inc sd book ob fs ex q) - ex < q ->
  match res_book (matchLoop inc sd book ob fs ex q) with
  | [] => True
  | m :: _ => pricesCross sd inc m = false
  end.
Proof.
  apply (matchLoop_elim inc sd
           (fun book _ _ ex q r =>
              Forall resting_ok book ->
              Forall (fun m => pricesCross sd inc m = true -> userId m <> userId inc) book ->
              res_ex r - ex < q ->
              match res_book r with
              | [] => True
              | m :: _ => pricesCross sd inc m = false
              end));
    clear; intros; res_simpl; auto; try lia.
  - inversion H4; subst. tauto.
  - inversion H4; subst. inversion H5; subst.
    destruct (filledMaker_remove q m H H9 H2) as [Hf Hle].
    apply H3; auto. lia.
  - inversion H4; subst.
    destruct (filledMaker_keep q m H H9 H2) as (Hf & Hlt & _).
    pose proof (matchLoop_executed_bounds inc sd rest (obAfterFill sd q m ob)
                  (fs ++ [fillOf q m ob]) (ex + fillQtyOf q m) (q - fillQtyOf q m) H10) as Hb.
    res_simpl. lia.
Qed.

Lemma fill_of_maker_cons inc sd x book f :
  fill_of_maker inc sd book f -> fill_of_maker inc sd (x :: book) f.
Proof.
  intros (m & Hin & H). exists m. split; [now right|exact H].
Qed.

Lemma matchLoop_fills inc sd book ob fs ex q :
  Forall resting_ok book ->
  exists new,
    res_fills (matchLoop inc sd book ob fs ex q) = fs ++ new
    /\ res_ex (matchLoop inc sd book ob fs ex q) = ex + sum_qty new
    /\ sublist (fill_price <$> new) (price <$> book)
    /\ Forall (fill_of_maker inc sd book) new.
Proof.
  apply (matchLoop_elim inc sd
           (fun book _ fs ex _ r =>
              Forall resting_ok book ->
              exists new, res_fills r = fs ++ new /\ res_ex r = ex + sum_qty new
                /\ sublist (fill_price <$> new) (price <$> book)
                /\ Forall (fill_of_maker inc sd book) new));
    clear; intros; res_simpl.
  - exists []. rewrite app_nil_r. simpl. repeat split; auto. lia.
  - exists []. rewrite app_nil_r. simpl. repeat split; auto; [lia|apply sublist_nil_l].
  - exists []. rewrite app_nil_r. simpl. repeat split; auto; [lia|apply sublist_nil_l].
  - inversion H3; subst. destruct (H2 H7) as (new & Hf & He & Hs & Hm).
    exists new. repeat split; auto.
    + now apply sublist_cons.
    + eapply Forall_impl; [exact Hm|]. intros f. apply fill_of_maker_cons.
  - inversion H4; subst. destruct (H3 H8) as (new & Hf & He & Hs & Hm).
    destruct (filledMaker_remove q m H H7 H2) as [Hq Hle].
    exists (fillOf q m ob :: new). rewrite <- app_assoc in Hf. simpl in *.
    repeat split; auto.
    + lia.
    + now apply sublist_skip.
    + constructor.
      * exists m. simpl. repeat split; auto; try (left; fail).
        -- unfold resting_ok, remaining, subtract in *. lia.
        -- lia.
      * eapply Forall_impl; [exact Hm|]. intros f. apply fill_of_maker_cons.
  - inversion H4; subst. destruct (H3 H8) as (new & Hf & He & Hs & Hm).
    destruct (filledMaker_keep q m H H7 H2) as (Hq & Hlt & _).
    exists (fillOf q m ob :: new). rewrite <- app_assoc in Hf. simpl in *.
    repeat split; auto.
    + lia.
    + now apply sublist_skip.
    + constructor.
      * exists m. simpl. repeat split; auto; try (left; fail); lia.
      * eapply Forall_impl; [exact Hm|]. intros f. apply fill_of_maker_cons.
Qed.

(** The loop writes the maker side's depth map, [lastTradeId] and
    [currentPrice] only. *)
Lemma matchLoop_frame inc sd book ob fs ex q :
  bids (res_ob (matchLoop inc sd book ob fs ex q)) = bids ob
  /\ asks (res_ob (matchLoop inc sd book ob fs ex q)) = asks ob
  /\ baseAsset (res_ob (matchLoop inc sd book ob fs ex q)) = baseAsset ob
  /\ quoteAsset (res_ob (matchLoop inc sd book ob fs ex q)) = quoteAsset ob
  /\ stpMode (res_ob (matchLoop inc sd book ob fs ex q)) = stpMode ob
  /\ depthOf sd (res_ob (matchLoop inc sd book ob fs ex q)) = depthOf sd ob.
Proof.
  apply (matchLoop_elim inc sd
           (fun _ ob _ _ _ r =>
              bids (res_ob r) = bids ob /\ asks (res_ob r) = asks ob
              /\ baseAsset (res_ob r) = baseAsset ob
              /\ quoteAsset (res_ob r) = quoteAsset ob /\ stpMode (res_ob r) = stpMode ob
              /\ depthOf sd (res_ob r) = depthOf sd ob));
    clear; intros; res_simpl; try (repeat split; reflexivity).
  - tauto.
  - destruct H3 as (-> & -> & -> & -> & -> & ->). now destruct sd.
  - destruct H3 as (-> & -> & -> & -> & -> & ->). now destruct sd.
Qed.

Lemma level_sum_filledMaker_keep p q m :
  0 < q -> resting_ok m -> filled (filledMaker q m) <> quantity m ->
  (if decide (price (filledMaker q m) = p) then remaining (filledMaker q m) else 0)
  = (if decide (price m = p) then remaining m else 0)
    + (if decide (price m = p) then - fillQtyOf q m else 0).
Proof.
  intros Hq Hm Hne. destruct (filledMaker_keep q m Hq Hm Hne) as (Hf & _ & _ & Hr).
  change (price (filledMaker q m)) with (price m). case_decide; lia.
Qed.

Lemma depthOf_obAfterFill sd q m ob :
  depthOf (otherSide sd) (obAfterFill sd q m ob)
  = updateDepthMap (depthOf (otherSide sd) ob) (price m) (subtract 0 (fillQtyOf q m)).
Proof. now destruct sd. Qed.

(** The maker side's depth map follows the fills. *)
Lemma matchLoop_depth inc sd book ob fs ex q pre :
  Forall resting_ok pre -> Forall resting_ok book ->
  depth_agrees (depthOf (otherSide sd) ob) (pre ++ book) ->
  depth_agrees (depthOf (otherSide sd) (res_ob (matchLoop inc sd book ob fs ex q)))
    (pre ++ res_book (matchLoop inc sd book ob fs ex q)).
Proof.
  revert pre.
  apply (matchLoop_elim inc sd
           (fun book ob _ _ _ r => forall pre,
              Forall resting_ok pre -> Forall resting_ok book ->
              depth_agrees (depthOf (otherSide sd) ob) (pre ++ book) ->
              depth_agrees (depthOf (otherSide sd) (res_ob r)) (pre ++ res_book r)));
    clear; intros; res_simpl; auto.
  - inversion H4; subst.
    specialize (H2 (pre ++ [m])). rewrite <- !app_assoc in H2. simpl in H2.
    apply H2; auto. apply Forall_app; auto.
  - inversion H5; subst.
    destruct (filledMaker_remove q m H H9 H2) as [Hf Hle].
    apply H3; auto. rewrite depthOf_obAfterFill.
    apply (updateDepthMap_agrees _ (pre ++ m :: rest)); auto.
    + apply level_sum_nonneg. apply Forall_app; auto.
    + rewrite !level_sum_app. simpl. rewrite decide_True by done.
      unfold subtract in *. lia.
    + intros p Hp. rewrite !level_sum_app. simpl. rewrite decide_False by done. lia.
  - inversion H5; subst.
    destruct (filledMaker_keep q m H H9 H2) as (Hf & Hlt & Hok & Hr).
    specialize (H3 (pre ++ [filledMaker q m])). rewrite <- !app_assoc in H3. simpl in H3.
    apply H3; auto; [apply Forall_app; auto|].
    rewrite depthOf_obAfterFill.
    apply (updateDepthMap_agrees _ (pre ++ m :: rest)); auto.
    + apply level_sum_nonneg. apply Forall_app; auto.
    + rewrite !level_sum_app. simpl. change (price (filledMaker q m)) with (price m).
      rewrite !decide_True by done. unfold subtract in *. lia.
    + intros p Hp. rewrite !level_sum_app. simpl.
      change (price (filledMaker q m)) with (price m).
      rewrite !decide_False by done. lia.
Qed.

(** *** The binary search and the insertion *)

Lemma shouldGoLeft_mono sd p (arr : list Order) i j oi oj :
  book_sorted sd arr -> (i <= j)%nat -> arr !! i = Some oi -> arr !! j = Some oj ->
  shouldGoLeft sd p oi = true -> shouldGoLeft sd p oj = true.
Proof.
  intros Hs Hij Hi Hj Hg.
  destruct (decide (i = j)) as [->|Hne]; [congruence|].
  assert (Hlt : (i < j)%nat) by lia.
  assert (Hle : le_side sd (price oi) (price oj)).
  { clear Hg Hne Hij. revert i j Hi Hj Hlt.
    induction arr as [|x arr IH]; intros i j Hi Hj Hlt; [discriminate|].
    apply book_sorted_cons in Hs as [Hx Hs].
    destruct j as [|j]; [lia|]. simpl in Hj.
    destruct i as [|i]; simpl in Hi.
    - injection Hi as <-. rewrite Forall_forall in Hx. apply Hx.
      eapply list_elem_of_lookup_2; eauto.
    - apply (IH Hs i j); auto. lia. }
  destruct sd; simpl in *; dec_unfold; lia.
Qed.

Lemma findInsertIndex_loop_spec sd p (arr : list Order) :
  book_sorted sd arr ->
  forall fuel low high,
    (low <= high <= length arr)%nat -> (high - low <= fuel)%nat ->
    (forall j o, (j < low)%nat -> arr !! j = Some o -> shouldGoLeft sd p o = false) ->
    (forall j o, (high <= j)%nat -> arr !! j = Some o -> shouldGoLeft sd p o = true) ->
    let r := findInsertIndex_loop fuel arr p sd low high in
    (r <= length arr)%nat
    /\ (forall j o, (j < r)%nat -> arr !! j = Some o -> shouldGoLeft sd p o = false)
    /\ (forall j o, (r <= j)%nat -> arr !! j = Some o -> shouldGoLeft sd p o = true).
Proof.
  intros Hs. induction fuel as [|fuel IH]; intros low high Hb Hf Hlo Hhi; simpl.
  - assert (low = high) by lia. subst. repeat split; auto. lia.
  - destruct (Nat.ltb_spec low high) as [Hlt|Hge].
    + pose proof (Nat.div2_div (low + high)) as Hd.
      assert (Hm : (low <= Nat.div2 (low + high) < high)%nat).
      { rewrite Hd. split.
        - apply Nat.div_le_lower_bound; lia.
        - apply Nat.Div0.div_lt_upper_bound; lia. }
      destruct (arr !! Nat.div2 (low + high)) as [o|] eqn:Ho.
      * destruct (shouldGoLeft sd p o) eqn:Hg.
        -- apply IH; auto; try lia.
           intros j oj Hj Hoj.
           eapply (shouldGoLeft_mono sd p arr (Nat.div2 (low + high)) j); eauto.
        -- apply IH; auto; try lia.
           intros j oj Hj Hoj.
           destruct (shouldGoLeft sd p oj) eqn:Hgj; [|reflexivity].
           assert (shouldGoLeft sd p o = true); [|congruence].
           eapply (shouldGoLeft_mono sd p arr j (Nat.div2 (low + high))); eauto. lia.
      * apply lookup_ge_None in Ho. lia.
    + assert (low = high) by lia. subst. repeat split; auto. lia.
Qed.

Lemma findInsertIndex_spec sd p (arr : list Order) :
  book_sorted sd arr ->
  let r := findInsertIndex arr p sd in
  (r <= length arr)%nat
  /\ Forall (fun o => shouldGoLeft sd p o = false) (take r arr)
  /\ Forall (fun o => shouldGoLeft sd p o = true) (drop r arr).
Proof.
  intros Hs. unfold findInsertIndex.
  assert (H0 : forall j o, (j < 0)%nat -> arr !! j = Some o -> shouldGoLeft sd p o = false)
    by (intros; lia).
  assert (H1 : forall j o, (length arr <= j)%nat -> arr !! j = Some o ->
                           shouldGoLeft sd p o = true).
  { intros j o Hj Ho. apply lookup_lt_Some in Ho. lia. }
  destruct (findInsertIndex_loop_spec sd p arr Hs (length arr) 0%nat (length arr)
              ltac:(lia) ltac:(lia) H0 H1) as (Hr & Hlo & Hhi).
  split; [exact Hr|]. split.
    + apply Forall_forall. intros o Ho. apply list_elem_of_lookup in Ho as [j Hj].
      apply lookup_take_Some in Hj as [Hj Hlt]. eapply Hlo; eauto.
    + apply Forall_forall. intros o Ho. apply list_elem_of_lookup in Ho as [j Hj].
      rewrite lookup_drop in Hj. eapply Hhi; [|exact Hj]. lia.
Qed.

Lemma book_sorted_insert ms (l1 l2 : list Order) x :
  book_sorted ms (l1 ++ l2) ->
  Forall (fun y => le_side ms (price y) (price x)) l1 ->
  Forall (fun y => le_side ms (price x) (price y)) l2 ->
  book_sorted ms (l1 ++ x :: l2).
Proof.
  induction l1 as [|y l1 IH]; simpl; intros Hs H1 H2.
  - apply book_sorted_cons. auto.
  - apply book_sorted_cons in Hs as [Hy Hs]. inversion H1; subst.
    apply book_sorted_cons. split; [|apply IH; auto].
    apply Forall_app in Hy as [Hy1 Hy2].
    apply Forall_app. split; auto.
Qed.

Lemma splice_in_sorted sd (arr : list Order) o :
  book_sorted sd arr ->
  book_sorted sd (splice_in (findInsertIndex arr (price o) sd) o arr).
Proof.
  intros Hs. destruct (findInsertIndex_spec sd (price o) arr Hs) as (Hr & Hlo & Hhi).
  unfold splice_in. apply book_sorted_insert.
  - now rewrite take_drop.
  - eapply Forall_impl; [exact Hlo|]. intros y Hy.
    destruct sd; simpl in *; dec_unfold; lia.
  - eapply Forall_impl; [exact Hhi|]. intros y Hy.
    destruct sd; simpl in *; dec_unfold; lia.
Qed.

Lemma elem_of_splice_in i o (arr : list Order) x :
  x ∈ splice_in i o arr <-> x = o \/ x ∈ arr.
Proof.
  unfold splice_in. rewrite <- (take_drop i arr) at 3.
  rewrite !elem_of_app, elem_of_cons. tauto.
Qed.

Lemma level_sum_splice_in p i o (arr : list Order) :
  level_sum p (splice_in i o arr)
  = (if decide (price o = p) then remaining o else 0) + level_sum p arr.
Proof.
  unfold splice_in. rewrite <- (take_drop i arr) at 3.
  rewrite !level_sum_app. simpl. lia.
Qed.

Lemma Forall_splice_in (P : Order -> Prop) i o (arr : list Order) :
  P o -> Forall P arr -> Forall P (splice_in i o arr).
Proof.
  intros Ho Ha. rewrite Forall_forall in Ha |- *.
  intros x Hx. apply elem_of_splice_in in Hx as [->|Hx]; auto.
Qed.

(** *** Cancellation *)



Lemma remove_by_id_None id (l : list Order) :
  find_by_id id l = None -> remove_by_id id l = l.
Proof.
  induction l as [|x l IH]; simpl; [reflexivity|].
  case_decide; [discriminate|]. intros H'. now rewrite IH.
Qed.

Lemma remove_by_id_keys id (l : list Order) :
  sublist (okey <$> remove_by_id id l) (okey <$> l).
Proof.
  induction l as [|x l IH]; simpl; [reflexivity|].
  case_decide; simpl.
  - now apply sublist_cons.
  - now apply sublist_skip.
Qed.

Lemma remove_by_id_sublist id (l : list Order) : sublist (remove_by_id id l) l.
Proof.
  induction l as [|x l IH]; simpl; [reflexivity|].
  case_decide; [now apply sublist_cons|now apply sublist_skip].
Qed.

Lemma level_sum_remove_by_id p id (l : list Order) c :
  find_by_id id l = Some c ->
  level_sum p (remove_by_id id l)
  = level_sum p l - (if decide (price c = p) then remaining c else 0).
Proof.
  induction l as [|x l IH]; simpl; [discriminate|].
  destruct (decide (orderId x = id)).
  - intros [= <-]. lia.
  - intros Hc. simpl. rewrite (IH Hc). lia.
Qed.

(** *** Preservation of the book invariant *)

Lemma sublist_keys_elem (l' l : list Order) x :
  sublist (okey <$> l') (okey <$> l) -> x ∈ l' -> exists y, y ∈ l /\ okey y = okey x.
Proof.
  intros Hs Hx.
  assert (Hk : okey x ∈ okey <$> l).
  { eapply elem_of_sublist; [|exact Hs]. now apply list_elem_of_fmap_2. }
  apply list_elem_of_fmap in Hk as (y & Hy & Hin). eauto.
Qed.

Lemma sublist_keys_side sd (l' l : list Order) :
  sublist (okey <$> l') (okey <$> l) ->
  Forall (fun o => side o = sd) l -> Forall (fun o => side o = sd) l'.
Proof.
  intros Hs. apply (sublist_keys_Forall (fun k => snd (fst k) = sd) l' l Hs).
Qed.

Lemma book_inv_shrink ob bs as_ ltid cur bd ad :
  book_inv ob ->
  sublist (okey <$> bs) (okey <$> bids ob) ->
  sublist (okey <$> as_) (okey <$> asks ob) ->
  Forall resting_ok bs -> Forall resting_ok as_ ->
  depth_agrees bd bs -> depth_agrees ad as_ ->
  book_inv (mkBook bs as_ (baseAsset ob) (quoteAsset ob) ltid cur (stpMode ob) bd ad).
Proof.
  intros [] Hsb Hsa Hob Hoa Hdb Hda. constructor; simpl; auto.
  - eapply sublist_keys_sorted; eauto.
  - eapply sublist_keys_sorted; eauto.
  - assert (Hb' : book_sorted buy bs) by (eapply sublist_keys_sorted; eauto).
    assert (Ha' : book_sorted sell as_) by (eapply sublist_keys_sorted; eauto).
    apply (no_crossing_all bs as_ Hb' Ha'). intros b a Hb Ha.
    destruct (sublist_keys_elem _ _ b Hsb Hb) as (b0 & Hb0 & Hkb).
    destruct (sublist_keys_elem _ _ a Hsa Ha) as (a0 & Ha0 & Hka).
    pose proof (proj1 (no_crossing_all _ _ inv_bids_sorted0 inv_asks_sorted0)
                  inv_no_crossing0 b0 a0 Hb0 Ha0) as Hlt.
    unfold okey in *. assert (price b0 = price b) by congruence.
    assert (price a0 = price a) by congruence. lia.
  - eapply sublist_keys_side; eauto.
  - eapply sublist_keys_side; eauto.
Qed.

Lemma cancelBid_inv c ob : book_inv ob -> book_inv (cancelBid c ob).1.
Proof.
  intros Hinv. unfold cancelBid.
  destruct (find_by_id (orderId c) (bids ob)) as [x|] eqn:Hf; simpl; [|exact Hinv].
  pose proof Hinv as [].
  apply (book_inv_shrink ob); auto.
  - apply remove_by_id_keys.
  - eapply Forall_forall. intros y Hy. rewrite Forall_forall in inv_bids_ok0.
    apply inv_bids_ok0. eapply elem_of_sublist; [exact Hy|apply remove_by_id_sublist].
  - apply (updateDepthMap_agrees _ (bids ob)); auto.
    + now apply level_sum_nonneg.
    + rewrite (level_sum_remove_by_id _ _ _ x Hf). rewrite decide_True by done.
      unfold subtract. lia.
    + intros q Hq. rewrite (level_sum_remove_by_id _ _ _ x Hf).
      rewrite decide_False by done. lia.
Qed.

Lemma cancelAsk_inv c ob : book_inv ob -> book_inv (cancelAsk c ob).1.
Proof.
  intros Hinv. unfold cancelAsk.
  destruct (find_by_id (orderId c) (asks ob)) as [x|] eqn:Hf; simpl; [|exact Hinv].
  pose proof Hinv as [].
  apply (book_inv_shrink ob); auto.
  - apply remove_by_id_keys.
  - eapply Forall_forall. intros y Hy. rewrite Forall_forall in inv_asks_ok0.
    apply inv_asks_ok0. eapply elem_of_sublist; [exact Hy|apply remove_by_id_sublist].
  - apply (updateDepthMap_agrees _ (asks ob)); auto.
    + now apply level_sum_nonneg.
    + rewrite (level_sum_remove_by_id _ _ _ x Hf). rewrite decide_True by done.
      unfold subtract. lia.
    + intros q Hq. rewrite (level_sum_remove_by_id _ _ _ x Hf).
      rewrite decide_False by done. lia.
Qed.

Lemma cancelConflict_inv ob c : book_inv ob -> book_inv (cancelConflict ob c).
Proof.
  unfold cancelConflict. destruct (side c); [apply cancelBid_inv|apply cancelAsk_inv].
Qed.

Lemma cancelConflicts_inv cs ob : book_inv ob -> book_inv (fold_left cancelConflict cs ob).
Proof.
  revert ob. induction cs as [|c cs IH]; intros ob H; simpl; [exact H|].
  apply IH. now apply cancelConflict_inv.
Qed.

Lemma pricesCross_le_side sd inc m :
  pricesCross sd inc m = true <-> le_side (otherSide sd) (price m) (price inc).
Proof. destruct sd; simpl; dec_unfold; lia. Qed.

Lemma not_cross_tail sd inc m (l : list Order) :
  book_sorted (otherSide sd) (m :: l) -> pricesCross sd inc m = false ->
  Forall (fun x => pricesCross sd inc x = false) (m :: l).
Proof.
  intros Hs Hm. apply book_sorted_cons in Hs as [Hx _]. constructor; auto.
  eapply Forall_impl; [exact Hx|]. intros x Hle. simpl in Hle.
  destruct (pricesCross sd inc x) eqn:Hc; [|reflexivity].
  apply pricesCross_le_side in Hc.
  assert (Hc' : pricesCross sd inc m = true).
  { apply pricesCross_le_side. etransitivity; eauto. }
  congruence.
Qed.

Lemma conflictingOrders_nil o (book : list Order) :
  book_sorted (otherSide (side o)) book ->
  conflictingOrders o book = [] -> no_self_cross o book.
Proof.
  unfold no_self_cross. induction book as [|m book IH]; intros Hs Hc; [constructor|].
  simpl in Hc. destruct (pricesCross (side o) o m) eqn:Hm.
  - destruct (decide (userId m = userId o)); [discriminate|].
    constructor; auto. apply IH; auto. now apply book_sorted_cons in Hs as [_ Hs].
  - eapply Forall_impl; [apply (not_cross_tail _ _ _ _ Hs Hm)|].
    simpl. intros x Hx Hx'. congruence.
Qed.

(** Every own crossing order is found by [wouldSelfTrade]. *)
Lemma conflictingOrders_complete o (book : list Order) m :
  book_sorted (otherSide (side o)) book ->
  m ∈ book -> pricesCross (side o) o m = true -> userId m = userId o ->
  m ∈ conflictingOrders o book.
Proof.
  induction book as [|x book IH]; intros Hs Hin Hc Hu; [inversion Hin|].
  simpl. destruct (pricesCross (side o) o x) eqn:Hx.
  - apply book_sorted_cons in Hs as [_ Hs].
    apply elem_of_cons in Hin as [->|Hin].
    + rewrite decide_True by done. left.
    + destruct (decide (userId x = userId o)); [right|]; auto.
  - pose proof (not_cross_tail _ _ _ _ Hs Hx) as Hall.
    rewrite Forall_forall in Hall. specialize (Hall m Hin). congruence.
Qed.

Lemma conflictingOrders_sound o (book : list Order) m :
  m ∈ conflictingOrders o book ->
  m ∈ book /\ pricesCross (side o) o m = true /\ userId m = userId o.
Proof.
  induction book as [|x book IH]; simpl; [inversion 1|].
  destruct (pricesCross (side o) o x) eqn:Hx; [|inversion 1].
  destruct (decide (userId x = userId o)) as [Hu|Hu].
  - intros Hin. apply elem_of_cons in Hin as [->|Hin].
    + repeat split; auto. left.
    + destruct (IH Hin) as (? & ? & ?). repeat split; auto. now right.
  - intros Hin. destruct (IH Hin) as (? & ? & ?). repeat split; auto. now right.
Qed.

(** Everything the later proofs need about one call of [matchOrder]. *)
Lemma matchOrder_spec o sd ob ob1 fs ex :
  book_inv ob -> matchOrder o sd ob = (ob1, fs, ex) ->
  book_inv ob1
  /\ ownBook sd ob1 = ownBook sd ob
  /\ depthOf sd ob1 = depthOf sd ob
  /\ baseAsset ob1 = baseAsset ob /\ quoteAsset ob1 = quoteAsset ob
  /\ stpMode ob1 = stpMode ob
  /\ sublist (okey <$> oppositeBook sd ob1) (okey <$> oppositeBook sd ob)
  /\ 0 <= ex <= Z.max (quantity o) 0
  /\ ex = sum_qty fs
  /\ Forall (fill_of_maker o sd (oppositeBook sd ob)) fs
  /\ sublist (fill_price <$> fs) (price <$> oppositeBook sd ob)
  /\ (Forall (fun m => pricesCross sd o m = true -> userId m <> userId o)
        (oppositeBook sd ob) ->
      ex < quantity o ->
      Forall (fun m => pricesCross sd o m = false) (oppositeBook sd ob1)).
Proof.
  intros Hinv Hm. unfold matchOrder in Hm.
  assert (Hopp_ok : Forall resting_ok (oppositeBook sd ob))
    by (destruct Hinv; now destruct sd).
  assert (Hopp_sorted : book_sorted (otherSide sd) (oppositeBook sd ob))
    by (destruct Hinv; now destruct sd).
  assert (Hopp_depth : depth_agrees (depthOf (otherSide sd) ob) (oppositeBook sd ob))
    by (destruct Hinv; now destruct sd).
  pose proof (matchLoop_keys o sd (oppositeBook sd ob) ob [] 0 (quantity o)) as Hk.
  pose proof (matchLoop_resting_ok o sd (oppositeBook sd ob) ob [] 0 (quantity o) Hopp_ok)
    as Hok.
  pose proof (matchLoop_executed_bounds o sd (oppositeBook sd ob) ob [] 0 (quantity o)
                Hopp_ok) as Hb.
  pose proof (matchLoop_stops o sd (oppositeBook sd ob) ob [] 0 (quantity o) Hopp_ok)
    as Hst.
  pose proof (matchLoop_fills o sd (oppositeBook sd ob) ob [] 0 (quantity o) Hopp_ok)
    as (new & Hf1 & Hf2 & Hf3 & Hf4).
  pose proof (matchLoop_frame o sd (oppositeBook sd ob) ob [] 0 (quantity o))
    as (Hfb & Hfa & Hfbase & Hfq & Hfs & Hfd).
  pose proof (matchLoop_depth o sd (oppositeBook sd ob) ob [] 0 (quantity o) []
                (List.Forall_nil _) Hopp_ok Hopp_depth) as Hd.
  destruct (matchLoop o sd (oppositeBook sd ob) ob [] 0 (quantity o))
    as [[[book' ob'] fs'] ex'] eqn:Hr.
  unfold res_book, res_ob, res_fills, res_ex in *. simpl in *.
  injection Hm as <- <- <-. subst fs'.
  assert (Hinv1 : book_inv (match sd with
                            | buy => set_asks book' ob'
                            | sell => set_bids book' ob'
                            end)).
  { pose proof Hinv as [].
    destruct sd; simpl in *; unfold set_asks, set_bids;
      rewrite ?Hfb, ?Hfa, ?Hfbase, ?Hfq, ?Hfs, ?Hfd;
      apply (book_inv_shrink ob); auto; reflexivity. }
  split; [exact Hinv1|].
  repeat split; try (destruct sd; simpl in *; auto; fail); try lia.
  intros Hown Hlt.
  assert (Hs' : book_sorted (otherSide sd) book')
    by (eapply sublist_keys_sorted; eauto).
  specialize (Hst Hown ltac:(lia)).
  assert (Hgoal : Forall (fun m => pricesCross sd o m = false) book').
  { destruct book' as [|m book']; [constructor|].
    now apply not_cross_tail. }
  now destruct sd.
Qed.

Lemma updateDepth_insert_inv_bids o ob :
  book_inv ob -> resting_ok o -> side o = buy ->
  Forall (fun a => price o < price a) (asks ob) ->
  book_inv (updateDepth buy (price o) (remaining o)
              (set_bids (splice_in (findInsertIndex (bids ob) (price o) buy) o (bids ob)) ob)).
Proof.
  intros [] Hok Hside Hlt. constructor; simpl; auto.
  - now apply splice_in_sorted.
  - assert (Hs : book_sorted buy
                   (splice_in (findInsertIndex (bids ob) (price o) buy) o (bids ob)))
      by now apply splice_in_sorted.
    apply (no_crossing_all _ _ Hs inv_asks_sorted0). intros b a Hb Ha.
    apply elem_of_splice_in in Hb as [->|Hb].
    + rewrite Forall_forall in Hlt. now apply Hlt.
    + now apply (proj1 (no_crossing_all _ _ inv_bids_sorted0 inv_asks_sorted0)
                   inv_no_crossing0).
  - now apply Forall_splice_in.
  - now apply Forall_splice_in.
  - apply (updateDepthMap_agrees _ (bids ob)); auto.
    + now apply level_sum_nonneg.
    + rewrite level_sum_splice_in. rewrite decide_True by done. lia.
    + intros q Hq. rewrite level_sum_splice_in. rewrite decide_False by done. lia.
Qed.

Lemma updateDepth_insert_inv_asks o ob :
  book_inv ob -> resting_ok o -> side o = sell ->
  Forall (fun b => price b < price o) (bids ob) ->
  book_inv (updateDepth sell (price o) (remaining o)
              (set_asks (splice_in (findInsertIndex (asks ob) (price o) sell) o (asks ob)) ob)).
Proof.
  intros [] Hok Hside Hlt. constructor; simpl; auto.
  - now apply splice_in_sorted.
  - assert (Hs : book_sorted sell
                   (splice_in (findInsertIndex (asks ob) (price o) sell) o (asks ob)))
      by now apply splice_in_sorted.
    apply (no_crossing_all _ _ inv_bids_sorted0 Hs). intros b a Hb Ha.
    apply elem_of_splice_in in Ha as [->|Ha].
    + rewrite Forall_forall in Hlt. now apply Hlt.
    + now apply (proj1 (no_crossing_all _ _ inv_bids_sorted0 inv_asks_sorted0)
                   inv_no_crossing0).
  - now apply Forall_splice_in.
  - now apply Forall_splice_in.
  - apply (updateDepthMap_agrees _ (asks ob)); auto.
    + now apply level_sum_nonneg.
    + rewrite level_sum_splice_in. rewrite decide_True by done. lia.
    + intros q Hq. rewrite level_sum_splice_in. rewrite decide_False by done. lia.
Qed.

Lemma placeOrder_inv o ob :
  book_inv ob -> no_self_cross o (oppositeBook (side o) ob) ->
  book_inv (placeOrder o ob).1.
Proof.
  intros Hinv Hown. unfold placeOrder.
  destruct (matchOrder o (side o) ob) as [[ob1 fs] ex] eqn:Hm.
  destruct (matchOrder_spec o (side o) ob ob1 fs ex Hinv Hm)
    as (Hinv1 & _ & _ & _ & _ & _ & _ & Hex & _ & _ & _ & Hstop).
  simpl. unfold isLess. destruct (Z.ltb_spec ex (quantity o)) as [Hlt|Hge]; simpl; [|exact Hinv1].
  specialize (Hstop Hown Hlt).
  assert (Hok : resting_ok (set_filled ex o)) by (unfold resting_ok; simpl; lia).
  destruct (side o) eqn:Hside; simpl in *.
  - apply (updateDepth_insert_inv_bids (set_filled ex o) ob1); auto.
    eapply Forall_impl; [exact Hstop|]. simpl. intros a Ha. dec_unfold. lia.
  - apply (updateDepth_insert_inv_asks (set_filled ex o) ob1); auto.
    eapply Forall_impl; [exact Hstop|]. simpl. intros a Ha. dec_unfold. lia.
Qed.

Lemma submseteq_NoDup_strings (l1 l2 : list string) : l1 ⊆+ l2 -> NoDup l2 -> NoDup l1.
Proof.
  intros Hs Hn. apply submseteq_sublist_l in Hs as (l' & Hsub & Hp).
  apply (sublist_NoDup l1 l'); [now rewrite Hp|exact Hsub].
Qed.

Lemma keys_sublist_ids (l' l : list Order) :
  sublist (okey <$> l') (okey <$> l) -> sublist (orderId <$> l') (orderId <$> l).
Proof.
  intros H.
  assert (Hf : forall k : list Order,
             orderId <$> k = (fun t : Z * Z * string * Side * string => t.1.1.2) <$> (okey <$> k)).
  { intros k. rewrite <- list_fmap_compose. reflexivity. }
  rewrite !Hf. now apply fmap_sublist.
Qed.

Lemma splice_in_perm i o (arr : list Order) : splice_in i o arr ≡ₚ o :: arr.
Proof.
  unfold splice_in. rewrite <- (take_drop i arr) at 3.
  now rewrite Permutation_middle.
Qed.

Lemma bids_cancelBid c ob :
  bids (cancelBid c ob).1 = remove_by_id (orderId c) (bids ob)
  /\ asks (cancelBid c ob).1 = asks ob
  /\ asksDepth (cancelBid c ob).1 = asksDepth ob
  /\ baseAsset (cancelBid c ob).1 = baseAsset ob
  /\ quoteAsset (cancelBid c ob).1 = quoteAsset ob
  /\ stpMode (cancelBid c ob).1 = stpMode ob
  /\ lastTradeId (cancelBid c ob).1 = lastTradeId ob
  /\ currentPrice (cancelBid c ob).1 = currentPrice ob.
Proof.
  unfold cancelBid. destruct (find_by_id (orderId c) (bids ob)) eqn:Hf; simpl.
  - repeat split; reflexivity.
  - rewrite remove_by_id_None by done. repeat split; reflexivity.
Qed.

Lemma asks_cancelAsk c ob :
  asks (cancelAsk c ob).1 = remove_by_id (orderId c) (asks ob)
  /\ bids (cancelAsk c ob).1 = bids ob
  /\ bidsDepth (cancelAsk c ob).1 = bidsDepth ob
  /\ baseAsset (cancelAsk c ob).1 = baseAsset ob
  /\ quoteAsset (cancelAsk c ob).1 = quoteAsset ob
  /\ stpMode (cancelAsk c ob).1 = stpMode ob
  /\ lastTradeId (cancelAsk c ob).1 = lastTradeId ob
  /\ currentPrice (cancelAsk c ob).1 = currentPrice ob.
Proof.
  unfold cancelAsk. destruct (find_by_id (orderId c) (asks ob)) eqn:Hf; simpl.
  - repeat split; reflexivity.
  - rewrite remove_by_id_None by done. repeat split; reflexivity.
Qed.

(** Cancelling the conflicts, all of which sit on the opposite side. *)
Lemma cancelConflicts_books sd cs ob :
  Forall (fun c => side c = otherSide sd) cs ->
  oppositeBook sd (fold_left cancelConflict cs ob) = remove_all cs (oppositeBook sd ob)
  /\ ownBook sd (fold_left cancelConflict cs ob) = ownBook sd ob
  /\ stpMode (fold_left cancelConflict cs ob) = stpMode ob
  /\ baseAsset (fold_left cancelConflict cs ob) = baseAsset ob
  /\ quoteAsset (fold_left cancelConflict cs ob) = quoteAsset ob.
Proof.
  revert ob. induction cs as [|c cs IH]; intros ob Hs; simpl.
  - repeat split; reflexivity.
  - inversion Hs as [|? ? Hc Hcs]; subst.
    destruct (IH (cancelConflict ob c) Hcs) as (-> & -> & -> & -> & ->).
    unfold cancelConflict. rewrite Hc.
    destruct sd; simpl.
    + destruct (asks_cancelAsk c ob) as (-> & -> & _ & -> & -> & -> & _).
      repeat split; reflexivity.
    + destruct (bids_cancelBid c ob) as (-> & -> & _ & -> & -> & -> & _).
      repeat split; reflexivity.
Qed.

Lemma remove_all_keys cs (l : list Order) :
  sublist (okey <$> remove_all cs l) (okey <$> l).
Proof.
  revert l. induction cs as [|c cs IH]; intros l; simpl; [reflexivity|].
  etransitivity; [apply IH|apply remove_by_id_keys].
Qed.

Lemma remove_all_sublist cs (l : list Order) : sublist (remove_all cs l) l.
Proof.
  revert l. induction cs as [|c cs IH]; intros l; simpl; [reflexivity|].
  etransitivity; [apply IH|apply remove_by_id_sublist].
Qed.

Lemma remove_by_id_gone id (l : list Order) x :
  NoDup (orderId <$> l) -> x ∈ remove_by_id id l -> orderId x <> id.
Proof.
  induction l as [|y l IH]; simpl; [inversion 2|].
  intros Hn Hx. apply NoDup_cons in Hn as [Hy Hn].
  destruct (decide (orderId y = id)) as [<-|Hne].
  - intros He. apply Hy. rewrite <- He. now apply list_elem_of_fmap_2.
  - apply elem_of_cons in Hx as [->|Hx]; auto.
Qed.

Lemma remove_all_gone cs (l : list Order) x c :
  NoDup (orderId <$> l) -> x ∈ remove_all cs l -> c ∈ cs -> orderId x <> orderId c.
Proof.
  revert l. induction cs as [|c0 cs IH]; intros l Hn Hx Hc; [inversion Hc|].
  simpl in Hx.
  assert (Hn' : NoDup (orderId <$> remove_by_id (orderId c0) l)).
  { eapply sublist_NoDup; [exact Hn|apply fmap_sublist, remove_by_id_sublist]. }
  apply elem_of_cons in Hc as [->|Hc].
  - apply (remove_by_id_gone _ l); auto.
    eapply elem_of_sublist; [exact Hx|apply remove_all_sublist].
  - eapply IH; eauto.
Qed.

Lemma cancelConflicts_no_self o (book : list Order) :
  book_sorted (otherSide (side o)) book ->
  NoDup (orderId <$> book) ->
  no_self_cross o (remove_all (conflictingOrders o book) book).
Proof.
  intros Hs Hn. apply Forall_forall. intros m Hm Hc Hu.
  assert (Hin : m ∈ book) by (eapply elem_of_sublist; [exact Hm|apply remove_all_sublist]).
  pose proof (conflictingOrders_complete o book m Hs Hin Hc Hu) as Hcf.
  now apply (remove_all_gone _ book m m Hn Hm Hcf).
Qed.

Lemma conflictingOrders_side o ob :
  book_inv ob ->
  Forall (fun c => side c = otherSide (side o))
    (conflictingOrders o (oppositeBook (side o) ob)).
Proof.
  intros []. apply Forall_forall. intros c Hc.
  apply conflictingOrders_sound in Hc as (Hin & _ & _).
  destruct (side o); simpl in *.
  - rewrite Forall_forall in inv_asks_side0. auto.
  - rewrite Forall_forall in inv_bids_side0. auto.
Qed.

Lemma wouldSelfTrade_false o ob :
  (wouldSelfTrade o ob).1 = false ->
  conflictingOrders o (oppositeBook (side o) ob) = [].
Proof.
  unfold wouldSelfTrade. simpl.
  destruct (conflictingOrders o (oppositeBook (side o) ob)); [reflexivity|].
  simpl. discriminate.
Qed.

Lemma book_sorted_opposite sd ob : book_inv ob -> book_sorted (otherSide sd) (oppositeBook sd ob).
Proof. intros []. now destruct sd. Qed.

(** [addOrder] keeps the invariant; removing the conflicts by identifier
    needs the identifiers of the opposite side to be distinct. *)
Lemma addOrder_inv o ob :
  book_inv ob ->
  (stpMode ob = CANCEL_OLDEST -> NoDup (orderId <$> oppositeBook (side o) ob)) ->
  book_inv (addOrder o ob).1.
Proof.
  intros Hinv Hids. unfold addOrder.
  destruct (wouldSelfTrade o ob) as [wst conflicts] eqn:Hw.
  destruct wst.
  - destruct (stpMode ob) eqn:Hstp; simpl.
    + exact Hinv.
    + assert (conflicts = conflictingOrders o (oppositeBook (side o) ob))
        by (unfold wouldSelfTrade in Hw; congruence).
      subst conflicts.
      apply placeOrder_inv; [now apply cancelConflicts_inv|].
      destruct (cancelConflicts_books (side o) _ ob (conflictingOrders_side o ob Hinv))
        as (-> & _).
      apply cancelConflicts_no_self; auto. now apply book_sorted_opposite.
    + now apply cancelConflicts_inv.
  - apply placeOrder_inv; auto.
    apply conflictingOrders_nil; [now apply book_sorted_opposite|].
    apply wouldSelfTrade_false. now rewrite Hw.
Qed.

Lemma all_ids_sides sd ob :
  all_ids ob ≡ₚ (orderId <$> ownBook sd ob) ++ (orderId <$> oppositeBook sd ob).
Proof.
  unfold all_ids. rewrite fmap_app. destruct sd; simpl; [reflexivity|].
  apply Permutation_app_comm.
Qed.

Lemma placeOrder_ids o ob :
  book_inv ob -> all_ids (placeOrder o ob).1 ⊆+ orderId o :: all_ids ob.
Proof.
  intros Hinv. unfold placeOrder.
  destruct (matchOrder o (side o) ob) as [[ob1 fs] ex] eqn:Hm.
  destruct (matchOrder_spec o (side o) ob ob1 fs ex Hinv Hm)
    as (_ & Hown & _ & _ & _ & _ & Hk & _).
  apply keys_sublist_ids in Hk.
  assert (H1 : all_ids ob1 ⊆+ all_ids ob).
  { rewrite (all_ids_sides (side o) ob1), (all_ids_sides (side o) ob), Hown.
    apply submseteq_skips_l. now apply sublist_submseteq. }
  simpl. destruct (isLess ex (quantity o)); simpl.
  - assert (H2 : all_ids (match side o with
                          | buy =>
                              updateDepth buy (price o) (subtract (quantity o) ex)
                                (set_bids (splice_in (findInsertIndex (bids ob1) (price o) buy)
                                             (set_filled ex o) (bids ob1)) ob1)
                          | sell =>
                              updateDepth sell (price o) (subtract (quantity o) ex)
                                (set_asks (splice_in (findInsertIndex (asks ob1) (price o) sell)
                                             (set_filled ex o) (asks ob1)) ob1)
                          end) ≡ₚ orderId o :: all_ids ob1).
    { unfold all_ids. destruct (side o); simpl; rewrite !fmap_app.
      - rewrite splice_in_perm. reflexivity.
      - rewrite splice_in_perm. simpl. now rewrite <- Permutation_middle. }
    rewrite H2. now apply submseteq_skip.
  - now apply submseteq_cons.
Qed.

Lemma cancelConflicts_ids sd cs ob :
  Forall (fun c => side c = otherSide sd) cs ->
  all_ids (fold_left cancelConflict cs ob) ⊆+ all_ids ob.
Proof.
  intros Hs. destruct (cancelConflicts_books sd cs ob Hs) as (Ho & Hw & _).
  rewrite (all_ids_sides sd (fold_left cancelConflict cs ob)), (all_ids_sides sd ob).
  rewrite Ho, Hw. apply submseteq_skips_l, sublist_submseteq, fmap_sublist.
  apply remove_all_sublist.
Qed.

Lemma addOrder_ids o ob :
  book_inv ob -> all_ids (addOrder o ob).1 ⊆+ orderId o :: all_ids ob.
Proof.
  intros Hinv. unfold addOrder.
  destruct (wouldSelfTrade o ob) as [wst conflicts] eqn:Hw.
  assert (conflicts = conflictingOrders o (oppositeBook (side o) ob))
    by (unfold wouldSelfTrade in Hw; congruence).
  subst conflicts.
  pose proof (cancelConflicts_ids (side o) _ ob (conflictingOrders_side o ob Hinv)) as Hc.
  destruct wst; [|now apply placeOrder_ids].
  destruct (stpMode ob); simpl.
  - now apply submseteq_cons.
  - etransitivity; [apply placeOrder_ids; now apply cancelConflicts_inv|].
    now apply submseteq_skip.
  - now apply submseteq_cons.
Qed.

Lemma addOrder_ids_unique o ob :
  book_inv ob -> ids_unique ob -> orderId o ∉ all_ids ob -> ids_unique (addOrder o ob).1.
Proof.
  intros Hinv Hu Hfresh. unfold ids_unique.
  eapply submseteq_NoDup_strings; [now apply addOrder_ids|].
  now apply NoDup_cons.
Qed.

Lemma cancelBid_ids_unique c ob : ids_unique ob -> ids_unique (cancelBid c ob).1.
Proof.
  unfold ids_unique, all_ids. intros Hu.
  destruct (bids_cancelBid c ob) as (-> & -> & _).
  eapply sublist_NoDup; [exact Hu|].
  apply fmap_sublist, sublist_app; [apply remove_by_id_sublist|reflexivity].
Qed.

Lemma cancelAsk_ids_unique c ob : ids_unique ob -> ids_unique (cancelAsk c ob).1.
Proof.
  unfold ids_unique, all_ids. intros Hu.
  destruct (asks_cancelAsk c ob) as (-> & -> & _).
  eapply sublist_NoDup; [exact Hu|].
  apply fmap_sublist, sublist_app; [reflexivity|apply remove_by_id_sublist].
Qed.

Lemma ids_unique_opposite sd ob : ids_unique ob -> NoDup (orderId <$> oppositeBook sd ob).
Proof.
  unfold ids_unique, all_ids. rewrite fmap_app. intros H.
  apply NoDup_app in H as (Hb & _ & Ha). now destruct sd.
Qed.

Lemma applyOp_well_formed ob op :
  well_formed ob ->
  match op with OpAddOrder o => orderId o ∉ all_ids ob | _ => True end ->
  well_formed (applyOp ob op).
Proof.
  intros [Hinv Hu] Hf. destruct op as [o|o|o]; simpl.
  - split.
    + apply addOrder_inv; auto. intros _. now apply ids_unique_opposite.
    + now apply addOrder_ids_unique.
  - split; [now apply cancelBid_inv|now apply cancelBid_ids_unique].
  - split; [now apply cancelAsk_inv|now apply cancelAsk_ids_unique].
Qed.

Lemma run_well_formed ops ob :
  well_formed ob -> fresh_ids ob ops -> well_formed (fold_left applyOp ops ob).
Proof.
  revert ob. induction ops as [|op ops IH]; intros ob Hwf Hf; simpl; [exact Hwf|].
  destruct Hf as [Hop Hf]. apply IH; auto. now apply applyOp_well_formed.
Qed.

Lemma emptyBook_well_formed : well_formed emptyBook.
Proof.
  split.
  - constructor; simpl; try constructor; try (intros p; simpl; now rewrite lookup_empty).
  - unfold ids_unique, all_ids. simpl. constructor.
Qed.

Lemma priced_by_maker_sublist (l' l : list Order) f :
  sublist l' l -> priced_by_maker l' f -> priced_by_maker l f.
Proof.
  intros Hs (m & Hin & H). exists m. split; [|exact H].
  eapply elem_of_sublist; eauto.
Qed.

Lemma matchLoop_fill_makers inc sd book ob fs ex q :
  exists new,
    res_fills (matchLoop inc sd book ob fs ex q) = fs ++ new
    /\ Forall (priced_by_maker book) new
    /\ sublist (fill_price <$> new) (price <$> book).
Proof.
  apply (matchLoop_elim inc sd
           (fun book _ fs _ _ r =>
              exists new, res_fills r = fs ++ new
                /\ Forall (priced_by_maker book) new
                /\ sublist (fill_price <$> new) (price <$> book)));
    clear; intros; res_simpl.
  - exists []. rewrite app_nil_r. repeat split; auto.
  - exists []. rewrite app_nil_r. repeat split; auto. apply sublist_nil_l.
  - exists []. rewrite app_nil_r. repeat split; auto. apply sublist_nil_l.
  - destruct H2 as (new & Hf & Hm & Hs). exists new. repeat split; auto.
    + eapply Forall_impl; [exact Hm|]. intros f.
      apply priced_by_maker_sublist. apply sublist_cons. reflexivity.
    + now apply sublist_cons.
  - destruct H3 as (new & Hf & Hm & Hs). exists (fillOf q m ob :: new).
    rewrite <- app_assoc in Hf. repeat split; auto.
    + constructor.
      * exists m. repeat split; auto. left.
      * eapply Forall_impl; [exact Hm|]. intros f.
        apply priced_by_maker_sublist. apply sublist_cons. reflexivity.
    + simpl. now apply sublist_skip.
  - destruct H3 as (new & Hf & Hm & Hs). exists (fillOf q m ob :: new).
    rewrite <- app_assoc in Hf. repeat split; auto.
    + constructor.
      * exists m. repeat split; auto. left.
      * eapply Forall_impl; [exact Hm|]. intros f.
        apply priced_by_maker_sublist. apply sublist_cons. reflexivity.
    + simpl. now apply sublist_skip.
Qed.

Lemma cancelConflicts_sublists cs ob :
  sublist (bids (fold_left cancelConflict cs ob)) (bids ob)
  /\ sublist (asks (fold_left cancelConflict cs ob)) (asks ob).
Proof.
  revert ob. induction cs as [|c cs IH]; intros ob; simpl; [split; reflexivity|].
  destruct (IH (cancelConflict ob c)) as [Hb Ha].
  unfold cancelConflict in *. destruct (side c).
  - destruct (bids_cancelBid c ob) as (Eb & Ea & _). rewrite Eb in Hb. rewrite Ea in Ha.
    split; [|exact Ha]. etransitivity; [exact Hb|apply remove_by_id_sublist].
  - destruct (asks_cancelAsk c ob) as (Ea & Eb & _). rewrite Eb in Hb. rewrite Ea in Ha.
    split; [exact Hb|]. etransitivity; [exact Ha|apply remove_by_id_sublist].
Qed.

Lemma placeOrder_fills o ob :
  Forall (priced_by_maker (oppositeBook (side o) ob)) (fills (placeOrder o ob).2)
  /\ sublist (fill_price <$> fills (placeOrder o ob).2)
       (price <$> oppositeBook (side o) ob).
Proof.
  unfold placeOrder, matchOrder.
  destruct (matchLoop_fill_makers o (side o) (oppositeBook (side o) ob) ob [] 0 (quantity o))
    as (new & Hf & Hm & Hs).
  destruct (matchLoop o (side o) (oppositeBook (side o) ob) ob [] 0 (quantity o))
    as [[[book' ob'] fs'] ex'].
  unfold res_fills in Hf. simpl in Hf. subst fs'.
  simpl. destruct (isLess ex' (quantity o)); simpl; auto.
Qed.

Lemma sublist_sorted_Z (R : Z -> Z -> Prop) `{!Transitive R} (l' l : list Z) :
  sublist l' l -> StronglySorted R l -> StronglySorted R l'.
Proof.
  intros Hs. induction Hs as [|x l1 l2 Hs IH|x l1 l2 Hs IH]; intros Hl; auto.
  - apply StronglySorted_inv in Hl as [Hl Hx]. constructor; auto.
    rewrite Forall_forall in Hx |- *. intros y Hy. apply Hx.
    eapply elem_of_sublist; eauto.
  - apply StronglySorted_inv in Hl as [Hl Hx]. auto.
Qed.

Lemma book_sorted_prices ms (l : list Order) :
  book_sorted ms l -> StronglySorted (le_side ms) (price <$> l).
Proof.
  induction l as [|x l IH]; intros Hs; simpl; [constructor|].
  apply book_sorted_cons in Hs as [Hx Hs]. constructor; auto.
  apply Forall_fmap. exact Hx.
Qed.

Lemma fresh_ids_take k ops ob : fresh_ids ob ops -> fresh_ids ob (take k ops).
Proof.
  revert k ob. induction ops as [|op ops IH]; intros k ob Hf.
  - now rewrite take_nil.
  - destruct k as [|k]; simpl; [exact I|].
    destruct Hf as [Hop Hf]. split; auto.
Qed.

Ltac solve_not_elem :=
  let H := fresh in
  intros H; repeat (apply elem_of_cons in H as [H|H]; [discriminate H|]); inversion H.

Ltac solve_fresh_ids :=
  repeat (split; [first [exact I | vm_compute; solve_not_elem]|]); exact I.

(** ** The book: geometry, depth, maker prices *)





Lemma addOrder_fill_makers o ob :
  Forall (priced_by_maker (oppositeBook (side o) ob)) (fills (addOrder o ob).2)
  /\ (side o = buy -> book_sorted sell (asks ob) ->
      StronglySorted Z.le (fill_price <$> fills (addOrder o ob).2)).
Proof.
  unfold addOrder. destruct (wouldSelfTrade o ob) as [wst conflicts].
  destruct (cancelConflicts_sublists conflicts ob) as [Hsb Hsa].
  assert (Hopp : sublist (oppositeBook (side o) (fold_left cancelConflict conflicts ob))
                   (oppositeBook (side o) ob)) by now destruct (side o).
  assert (Hplace : forall ob1, sublist (oppositeBook (side o) ob1) (oppositeBook (side o) ob) ->
            Forall (priced_by_maker (oppositeBook (side o) ob)) (fills (placeOrder o ob1).2)
            /\ (side o = buy -> book_sorted sell (asks ob) ->
                StronglySorted Z.le (fill_price <$> fills (placeOrder o ob1).2))).
  { intros ob1 Hs1. destruct (placeOrder_fills o ob1) as [Hm Hp]. split.
    - eapply Forall_impl; [exact Hm|]. intros f. now apply priced_by_maker_sublist.
    - intros Hbuy Hsorted. rewrite Hbuy in *. simpl in *.
      eapply (sublist_sorted_Z Z.le); [exact Hp|].
      eapply (sublist_sorted_Z Z.le); [apply fmap_sublist; exact Hs1|].
      apply (book_sorted_prices sell). exact Hsorted. }
  destruct wst; [|apply Hplace; reflexivity].
  destruct (stpMode ob); simpl.
  - split; [constructor|intros; constructor].
  - now apply Hplace.
  - split; [constructor|intros; constructor].
Qed.

(** C5. Every fill returned by [addOrder] names a resting order of the
    opposite side and carries that order's price, whatever the incoming
    price; and on asks sorted from the best price the fills of a buy come
    in non-decreasing price order. *)
Theorem maker_price_rule (o : Order) (ob : Orderbook) :
  Forall (priced_by_maker (oppositeBook (side o) ob)) (fills (addOrder o ob).2)
  /\ (side o = buy -> book_sorted sell (asks ob) ->
      StronglySorted Z.le (fill_price <$> fills (addOrder o ob).2)).
Proof. exact (addOrder_fill_makers o ob). Qed.

Lemma maker_price_rule_witness :
  side sweep_order = buy /\ book_sorted sell (asks sweep_book)
  /\ StronglySorted Z.le (fill_price <$> fills (addOrder sweep_order sweep_book).2)
  /\ fill_price <$> fills (addOrder sweep_order sweep_book).2 = [100; 101; 102].
Proof.
  assert (Hs : book_sorted sell (asks sweep_book)).
  { assert (Ha : asks sweep_book
                 = [mkOrder 100 5 "s1" 0 sell "2"; mkOrder 101 5 "s3" 0 sell "5";
                    mkOrder 102 5 "s2" 0 sell "3"]) by (vm_compute; reflexivity).
    rewrite Ha. repeat constructor; simpl; lia. }
  split; [reflexivity|]. split; [exact Hs|]. split.
  - exact (proj2 (maker_price_rule sweep_order sweep_book) eq_refl Hs).
  - vm_compute. reflexivity.
Defined.

(** ** The ledger: observations and effects *)











Lemma shifts_add_locked v : shifts (add_locked v) 0 v.
Proof. split; intros b; simpl; dec_unfold; lia. Qed.
























(** ** The engine: reachable states *)

















(** ** Self-trade prevention *)





(** ** Results of the dispatcher *)

(** C6. A [CANCEL_ORDER] for an unknown market, or for an order that does
    not rest in the book, and a [GET_OPEN_ORDERS] for an unknown market send
    no result at all (the [catch] only logs), whereas the other failing
    commands answer. *)
Theorem cancel_unknown_sends_no_result :
  process freshEngine "x" (CANCEL_ORDER "o1" "NOPE_INR") = (freshEngine, [])
  /\ process freshEngine "x" (CANCEL_ORDER "o1" "TATA_INR") = (freshEngine, [])
  /\ process freshEngine "x" (GET_OPEN_ORDERS "1" "NOPE_INR") = (freshEngine, [])
  /\ process freshEngine "x" (GET_DEPTH "NOPE_INR") = (freshEngine, [DEPTH [] []])
  /\ process freshEngine "x" (WITHDRAW "9" 5 "t") = (freshEngine, [WITHDRAW_FAILED UserNotFound]).
Proof. repeat split; vm_compute; reflexivity. Qed.

(** C8. A [CREATE_ORDER] with quantity zero is answered [ORDER_PLACED];
    with a negative quantity it is answered [ORDER_PLACED] too, and the
    lock of the negative amount has moved funds from locked to available. *)
Theorem nonpositive_quantity_is_placed :
  process freshEngine "x" (CREATE_ORDER "TATA_INR" 100 0 buy "1")
  = (freshEngine, [ORDER_PLACED "x" 0 []])
  /\ (process freshEngine "x" (CREATE_ORDER "TATA_INR" 100 (-5) buy "1")).2
     = [ORDER_PLACED "x" 0 []]
  /\ entry (balances (process freshEngine "x" (CREATE_ORDER "TATA_INR" 100 (-5) buy "1")).1)
       "1" "INR" = Some (mkBalance 1000500 (-500))
  /\ (process freshEngine "x" (CREATE_ORDER "TATA_INR" (-100) 5 sell "1")).2
     = [ORDER_PLACED "x" 0 []].
Proof. repeat split; vm_compute; reflexivity. Qed.

(** C4. After one [CREATE_ORDER] with a negative quantity on the fresh
    engine the locked component of the buyer is negative; no step failed. *)
Theorem negative_quantity_makes_locked_negative :
  let r := run freshEngine [("x"%string, CREATE_ORDER "TATA_INR" 100 (-5) buy "1")] in
  lk (balances r.1) "1" "INR" = -500
  /\ r.2 = [[ORDER_PLACED "x" 0 []]]
  /\ checkAndLockFunds "TATA" "INR" buy "1" 100 (-5) baseBalances
     = (balances r.1, None).
Proof. repeat split; vm_compute; reflexivity. Qed.

(** ** Conservation of assets *)

Lemma resting_sides sd ob : resting ob ≡ₚ ownBook sd ob ++ oppositeBook sd ob.
Proof. unfold resting. destruct sd; simpl; [reflexivity|apply Permutation_app_comm]. Qed.


























(** ** Snapshots *)



Lemma rebuild_step (m : gmap Z Z) (l : list Order) o :
  depth_agrees m l -> Forall resting_ok l -> resting_ok o ->
  depth_agrees (<[price o := add (default 0 (m !! price o)) (remaining o)]> m) (l ++ [o]).
Proof.
  intros Hm Hl Ho p. pose proof (level_sum_nonneg (price o) l Hl) as Hnn.
  pose proof (level_sum_nonneg p l Hl) as Hnp.
  rewrite level_sum_app. simpl.
  assert (Hr : 0 < remaining o) by (unfold resting_ok, remaining, subtract in *; lia).
  destruct (decide (price o = p)) as [<-|Hne].
  - rewrite lookup_insert_eq. rewrite (Hm (price o)).
    rewrite (decide_True (P := 0 < level_sum (price o) l + (remaining o + 0))) by lia.
    f_equal. unfold add. case_decide; simpl; lia.
  - rewrite lookup_insert_ne by done. rewrite (Hm p).
    repeat case_decide; try lia; f_equal; lia.
Qed.

Lemma rebuildDepth_agrees (l : list Order) :
  Forall resting_ok l -> depth_agrees (rebuildDepth l) l.
Proof.
  intros Hl. unfold rebuildDepth.
  assert (H : forall (pre rest : list Order) (m : gmap Z Z),
             Forall resting_ok pre -> Forall resting_ok rest -> depth_agrees m pre ->
             depth_agrees
               (fold_left (fun m o => <[price o := add (default 0 (m !! price o))
                                                    (remaining o)]> m) rest m)
               (pre ++ rest)).
  { intros pre rest. revert pre. induction rest as [|o rest IH]; intros pre m Hp Hr Hm; simpl.
    - now rewrite app_nil_r.
    - inversion Hr; subst.
      replace (pre ++ o :: rest) with ((pre ++ [o]) ++ rest) by now rewrite <- app_assoc.
      apply IH; auto; [apply Forall_app; auto|]. now apply rebuild_step. }
  apply (H [] l ∅); auto. intros p. simpl. now rewrite lookup_empty.
Qed.







(** ** Locked quote funds and what they back *)












Lemma reserved_app u l1 l2 : reserved u (l1 ++ l2) = reserved u l1 + reserved u l2.
Proof. induction l1 as [|x l1 IH]; simpl; [reflexivity|]. rewrite IH. lia. Qed.

Lemma reserved_splice_in u i o (l : list Order) :
  reserved u (splice_in i o l)
  = (if decide (userId o = u) then remaining o * price o else 0) + reserved u l.
Proof.
  unfold splice_in. rewrite <- (take_drop i l) at 3.
  rewrite !reserved_app. simpl. lia.
Qed.


Lemma maker_value_fillOf u q m ob :
  maker_value u (fillOf q m ob)
  = if decide (userId m = u) then fillQtyOf q m * price m else 0.
Proof. reflexivity. Qed.

Lemma matchLoop_reserved inc sd book ob fs ex q :
  Forall resting_ok book ->
  exists new,
    res_fills (matchLoop inc sd book ob fs ex q) = fs ++ new
    /\ forall u, reserved u (res_book (matchLoop inc sd book ob fs ex q))
                 = reserved u book - sum_fills (maker_value u) new.
Proof.
  apply (matchLoop_elim inc sd
           (fun book _ fs _ _ r =>
              Forall resting_ok book ->
              exists new, res_fills r = fs ++ new
                /\ forall u, reserved u (res_book r)
                             = reserved u book - sum_fills (maker_value u) new));
    clear; intros; res_simpl.
  - exists []. rewrite app_nil_r. split; auto; intros; simpl; lia.
  - exists []. rewrite app_nil_r. split; auto; intros; simpl; lia.
  - exists []. rewrite app_nil_r. split; auto; intros; simpl; lia.
  - inversion H3; subst. destruct (H2 H7) as (new & Hf & Hr).
    exists new. split; auto. intros u. rewrite Hr. lia.
  - inversion H4; subst. destruct (H3 H8) as (new & Hf & Hr).
    destruct (filledMaker_remove q m H H7 H2) as [Hq Hle].
    exists (fillOf q m ob :: new). rewrite <- app_assoc in Hf. split; auto.
    intros u. rewrite Hr. simpl. rewrite maker_value_fillOf, Hq.
    case_decide; lia.
  - inversion H4; subst. destruct (H3 H8) as (new & Hf & Hr).
    destruct (filledMaker_keep q m H H7 H2) as (Hq & Hlt & Hok & Hrem).
    exists (fillOf q m ob :: new). rewrite <- app_assoc in Hf. split; auto.
    intros u. rewrite Hr. simpl. rewrite maker_value_fillOf, Hq.
    change (userId (filledMaker q m)) with (userId m).
    change (price (filledMaker q m)) with (price m).
    rewrite Hrem. rewrite Z.mul_sub_distr_r. case_decide; lia.
Qed.

Lemma matchOrder_reserved o sd ob ob1 fs ex :
  book_inv ob -> matchOrder o sd ob = (ob1, fs, ex) ->
  forall u, reserved u (oppositeBook sd ob1)
            = reserved u (oppositeBook sd ob) - sum_fills (maker_value u) fs.
Proof.
  intros Hinv Hm. unfold matchOrder in Hm.
  assert (Hopp_ok : Forall resting_ok (oppositeBook sd ob))
    by (destruct Hinv; now destruct sd).
  destruct (matchLoop_reserved o sd (oppositeBook sd ob) ob [] 0 (quantity o) Hopp_ok)
    as (new & Hf & Hr).
  destruct (matchLoop o sd (oppositeBook sd ob) ob [] 0 (quantity o))
    as [[[book' ob'] fs'] ex'].
  unfold res_book, res_fills in *. simpl in *. injection Hm as <- <- <-. subst fs'.
  intros u. rewrite <- Hr. now destruct sd.
Qed.


(** Everything the ledger proofs need about [placeOrder]. *)
Lemma placeOrder_spec o ob :
  book_inv ob ->
  let ob2 := (placeOrder o ob).1 in
  let fs := fills (placeOrder o ob).2 in
  let ex := executedQty (placeOrder o ob).2 in
  ex = sum_qty fs /\ 0 <= ex <= Z.max (quantity o) 0
  /\ Forall (fill_of_maker o (side o) (oppositeBook (side o) ob)) fs
  /\ (forall u, reserved u (oppositeBook (side o) ob2)
                = reserved u (oppositeBook (side o) ob) - sum_fills (maker_value u) fs)
  /\ (forall u, reserved u (ownBook (side o) ob2)
                = reserved u (ownBook (side o) ob)
                  + if decide (userId o = u /\ ex < quantity o)
                    then (quantity o - ex) * price o else 0).
Proof.
  intros Hinv. unfold placeOrder.
  destruct (matchOrder o (side o) ob) as [[ob1 fs] ex] eqn:Hm.
  destruct (matchOrder_spec o (side o) ob ob1 fs ex Hinv Hm)
    as (_ & Hown & _ & _ & _ & _ & _ & Hex & Hsum & Hmk & _ & _).
  pose proof (matchOrder_reserved o (side o) ob ob1 fs ex Hinv Hm) as Hres.
  simpl. unfold isLess.
  destruct (Z.ltb_spec ex (quantity o)) as [Hlt|Hge]; simpl.
  - split; [exact Hsum|]. split; [exact Hex|]. split; [exact Hmk|]. split.
    + intros u. specialize (Hres u). revert Hres.
      destruct (side o); simpl; auto.
    + intros u. revert Hown.
      destruct (side o) eqn:Hs; simpl; intros <-; rewrite reserved_splice_in; simpl;
        unfold remaining, subtract; simpl; repeat case_decide; try lia; exfalso; tauto.
  - split; [exact Hsum|]. split; [exact Hex|]. split; [exact Hmk|]. split; [exact Hres|].
    intros u. rewrite Hown. rewrite decide_False by lia. lia.
Qed.






















(** * Further properties of the book and the engine *)

(** ** The trace of a match *)

(** What the loop of [matchOrder] appends to the fills, whatever the book:
    makers in book order, never the incoming user, with consecutive trade
    identifiers; and what it leaves in [lastTradeId] and [currentPrice]. *)
Lemma matchLoop_trace inc sd book ob fs ex q :
  exists new,
    res_fills (matchLoop inc sd book ob fs ex q) = fs ++ new
    /\ Forall (fun f => otherUserId f <> userId inc) new
    /\ sublist (markerOrderId <$> new) (orderId <$> book)
    /\ tradeId <$> new = seqZ (lastTradeId ob) (Z.of_nat (length new))
    /\ lastTradeId (res_ob (matchLoop inc sd book ob fs ex q))
       = lastTradeId ob + Z.of_nat (length new)
    /\ currentPrice (res_ob (matchLoop inc sd book ob fs ex q))
       = default (currentPrice ob) (fill_price <$> last new).
Proof.
  apply (matchLoop_elim inc sd
           (fun book ob fs _ _ r =>
              exists new, res_fills r = fs ++ new
                /\ Forall (fun f => otherUserId f <> userId inc) new
                /\ sublist (markerOrderId <$> new) (orderId <$> book)
                /\ tradeId <$> new = seqZ (lastTradeId ob) (Z.of_nat (length new))
                /\ lastTradeId (res_ob r) = lastTradeId ob + Z.of_nat (length new)
                /\ currentPrice (res_ob r)
                   = default (currentPrice ob) (fill_price <$> last new)));
    clear; intros; res_simpl.
  - exists []. rewrite app_nil_r. simpl. split_and!; auto. lia.
  - exists []. rewrite app_nil_r. simpl. split_and!; auto; [apply sublist_nil_l|lia].
  - exists []. rewrite app_nil_r. simpl. split_and!; auto; [apply sublist_nil_l|lia].
  - destruct H2 as (new & Hf & Hu & Hs & Ht & Hl & Hc). exists new.
    split_and!; auto. now apply sublist_cons.
  - destruct H3 as (new & Hf & Hu & Hs & Ht & Hl & Hc). exists (fillOf q m ob :: new).
    rewrite <- app_assoc in Hf.
    assert (Hl0 : lastTradeId (updateDepth (otherSide sd) (price m)
                                 (subtract 0 (fillQtyOf q m)) ob) = lastTradeId ob)
      by now destruct sd.
    rewrite Hl0 in Ht, Hl.
    split_and!; auto.
    + simpl. now apply sublist_skip.
    + cbn [length fmap list_fmap]. rewrite seqZ_cons by lia. simpl. f_equal.
      rewrite Ht. f_equal; lia.
    + rewrite Hl. cbn [length]. lia.
    + rewrite Hc, last_cons. destruct (last new); reflexivity.
  - destruct H3 as (new & Hf & Hu & Hs & Ht & Hl & Hc). exists (fillOf q m ob :: new).
    rewrite <- app_assoc in Hf.
    assert (Hl0 : lastTradeId (updateDepth (otherSide sd) (price m)
                                 (subtract 0 (fillQtyOf q m)) ob) = lastTradeId ob)
      by now destruct sd.
    rewrite Hl0 in Ht, Hl.
    split_and!; auto.
    + simpl. now apply sublist_skip.
    + cbn [length fmap list_fmap]. rewrite seqZ_cons by lia. simpl. f_equal.
      rewrite Ht. f_equal; lia.
    + rewrite Hl. cbn [length]. lia.
    + rewrite Hc, last_cons. destruct (last new); reflexivity.
Qed.

Lemma cancelConflicts_counters cs ob :
  lastTradeId (fold_left cancelConflict cs ob) = lastTradeId ob
  /\ currentPrice (fold_left cancelConflict cs ob) = currentPrice ob.
Proof.
  revert ob. induction cs as [|c cs IH]; intros ob; simpl; [split; reflexivity|].
  destruct (IH (cancelConflict ob c)) as [-> ->].
  unfold cancelConflict. destruct (side c).
  - destruct (bids_cancelBid c ob) as (_ & _ & _ & _ & _ & _ & -> & ->). split; reflexivity.
  - destruct (asks_cancelAsk c ob) as (_ & _ & _ & _ & _ & _ & -> & ->). split; reflexivity.
Qed.

Lemma placeOrder_trace o ob :
  Forall (fun f => otherUserId f <> userId o) (fills (placeOrder o ob).2)
  /\ sublist (markerOrderId <$> fills (placeOrder o ob).2)
       (orderId <$> oppositeBook (side o) ob)
  /\ tradeId <$> fills (placeOrder o ob).2
     = seqZ (lastTradeId ob) (Z.of_nat (length (fills (placeOrder o ob).2)))
  /\ lastTradeId (placeOrder o ob).1
     = lastTradeId ob + Z.of_nat (length (fills (placeOrder o ob).2))
  /\ currentPrice (placeOrder o ob).1
     = default (currentPrice ob) (fill_price <$> last (fills (placeOrder o ob).2)).
Proof.
  unfold placeOrder, matchOrder.
  destruct (matchLoop_trace o (side o) (oppositeBook (side o) ob) ob [] 0 (quantity o))
    as (new & Hf & Hu & Hs & Ht & Hl & Hc).
  destruct (matchLoop o (side o) (oppositeBook (side o) ob) ob [] 0 (quantity o))
    as [[[book' ob'] fs'] ex'].
  unfold res_fills, res_ob in *. simpl in Hf, Hl, Hc. subst fs'.
  simpl. destruct (isLess ex' (quantity o)); simpl;
    destruct (side o); simpl; split_and!; auto.
Qed.

Lemma addOrder_trace o ob :
  Forall (fun f => otherUserId f <> userId o) (fills (addOrder o ob).2)
  /\ sublist (markerOrderId <$> fills (addOrder o ob).2)
       (orderId <$> oppositeBook (side o) ob)
  /\ tradeId <$> fills (addOrder o ob).2
     = seqZ (lastTradeId ob) (Z.of_nat (length (fills (addOrder o ob).2)))
  /\ lastTradeId (addOrder o ob).1
     = lastTradeId ob + Z.of_nat (length (fills (addOrder o ob).2))
  /\ currentPrice (addOrder o ob).1
     = default (currentPrice ob) (fill_price <$> last (fills (addOrder o ob).2)).
Proof.
  unfold addOrder. destruct (wouldSelfTrade o ob) as [wst conflicts].
  destruct wst; [|apply placeOrder_trace].
  destruct (cancelConflicts_counters conflicts ob) as [Hl Hc].
  destruct (stpMode ob); simpl.
  - split_and!; auto; [apply sublist_nil_l|lia].
  - destruct (placeOrder_trace o (fold_left cancelConflict conflicts ob))
      as (Hu & Hs & Ht & Hl' & Hc').
    rewrite Hl in Ht, Hl'. rewrite Hc in Hc'. split_and!; auto.
    etransitivity; [exact Hs|]. apply fmap_sublist.
    destruct (cancelConflicts_sublists conflicts ob). now destruct (side o).
  - split_and!; auto; [apply sublist_nil_l|lia].
Qed.

(** X1. No fill of [addOrder] is ever made against an order of the incoming
    user: in every mode and on every book the loop passes over the user's
    own resting orders. *)
Theorem fills_never_self_trade (o : Order) (ob : Orderbook) :
  Forall (fun f => otherUserId f <> userId o) (fills (addOrder o ob).2).
Proof. exact (proj1 (addOrder_trace o ob)). Qed.

(** X2. The fills of [addOrder] name their makers in the order in which the
    makers rest on the opposite side (best price first, and first come
    first within a price): the maker identifiers are a subsequence of the
    identifiers of the opposite side, so that with distinct identifiers no
    maker is filled twice. *)
Theorem fills_follow_book_order (o : Order) (ob : Orderbook) :
  sublist (markerOrderId <$> fills (addOrder o ob).2)
    (orderId <$> oppositeBook (side o) ob)
  /\ (NoDup (orderId <$> oppositeBook (side o) ob) ->
      NoDup (markerOrderId <$> fills (addOrder o ob).2)).
Proof.
  destruct (addOrder_trace o ob) as (_ & Hs & _). split; [exact Hs|].
  intros Hn. eapply sublist_NoDup; eauto.
Qed.

(** X3. The fills of one [addOrder] carry consecutive trade identifiers that
    start at the book's [lastTradeId]; afterwards [lastTradeId] has advanced
    by the number of fills and [currentPrice] is the price of the last fill
    (unchanged when nothing was filled). *)
Theorem trade_ids_are_consecutive (o : Order) (ob : Orderbook) :
  tradeId <$> fills (addOrder o ob).2
  = seqZ (lastTradeId ob) (Z.of_nat (length (fills (addOrder o ob).2)))
  /\ lastTradeId (addOrder o ob).1
     = lastTradeId ob + Z.of_nat (length (fills (addOrder o ob).2))
  /\ currentPrice (addOrder o ob).1
     = default (currentPrice ob) (fill_price <$> last (fills (addOrder o ob).2)).
Proof. exact (proj2 (proj2 (addOrder_trace o ob))). Qed.

Lemma fills_follow_book_order_witness :
  NoDup (markerOrderId <$> fills (addOrder sweep_order sweep_book).2).
Proof.
  apply (proj2 (fills_follow_book_order sweep_order sweep_book)).
  apply (bool_decide_unpack _). vm_compute. exact I.
Defined.

(** ** Insertion *)

(** X4. On a side sorted from the best price, [findInsertIndex] returns a
    position within the array such that every order before it is at least
    as good as the new price and every order from it on is strictly worse:
    the new order goes behind all resting orders of its own price. *)
Theorem findInsertIndex_keeps_time_priority (sd : Side) (p : Z) (arr : list Order) :
  book_sorted sd arr ->
  let r := findInsertIndex arr p sd in
  (r <= length arr)%nat
  /\ Forall (fun o => le_side sd (price o) p) (take r arr)
  /\ Forall (fun o => ~ le_side sd (price o) p) (drop r arr).
Proof.
  intros Hs r. destruct (findInsertIndex_spec sd p arr Hs) as (Hr & Ht & Hd).
  fold r in Hr, Ht, Hd. split; [exact Hr|]. split.
  - eapply Forall_impl; [exact Ht|]. intros o. unfold shouldGoLeft, le_side.
    destruct sd; dec_unfold; lia.
  - eapply Forall_impl; [exact Hd|]. intros o. unfold shouldGoLeft, le_side.
    destruct sd; dec_unfold; lia.
Qed.

Lemma findInsertIndex_keeps_time_priority_witness :
  book_sorted buy priority_bids
  /\ findInsertIndex priority_bids 1001 buy = 3%nat
  /\ Forall (fun o => le_side buy (price o) 1001)
       (take (findInsertIndex priority_bids 1001 buy) priority_bids).
Proof.
  assert (Hs : book_sorted buy priority_bids).
  { unfold priority_bids. repeat constructor; simpl; lia. }
  split; [exact Hs|]. split; [reflexivity|].
  exact (proj1 (proj2 (findInsertIndex_keeps_time_priority buy 1001 priority_bids Hs))).
Defined.

(** ** What [addOrder] does with the quantity *)

Lemma placeOrder_outcome o ob :
  book_inv ob ->
  executedQty (placeOrder o ob).2 = sum_qty (fills (placeOrder o ob).2)
  /\ 0 <= executedQty (placeOrder o ob).2 <= Z.max (quantity o) 0
  /\ ((executedQty (placeOrder o ob).2 < quantity o
       /\ ownBook (side o) (placeOrder o ob).1
          ≡ₚ set_filled (executedQty (placeOrder o ob).2) o :: ownBook (side o) ob
       /\ status (placeOrder o ob).2
          = if decide (0 < executedQty (placeOrder o ob).2)
            then PARTIALLY_FILLED else ACCEPTED)
      \/ (quantity o <= executedQty (placeOrder o ob).2
          /\ ownBook (side o) (placeOrder o ob).1 = ownBook (side o) ob
          /\ status (placeOrder o ob).2 = ACCEPTED)).
Proof.
  intros Hinv. unfold placeOrder.
  destruct (matchOrder o (side o) ob) as [[ob1 fs] ex] eqn:Hm.
  destruct (matchOrder_spec o (side o) ob ob1 fs ex Hinv Hm)
    as (_ & Hown & _ & _ & _ & _ & _ & Hex & Hsum & _).
  simpl. unfold isLess, isGreater.
  destruct (Z.ltb_spec ex (quantity o)) as [Hlt|Hge]; simpl.
  - split; [exact Hsum|]. split; [exact Hex|]. left. split; [exact Hlt|]. split.
    + rewrite <- Hown. destruct (side o); simpl; apply splice_in_perm.
    + destruct (Z.ltb_spec 0 ex); case_decide; auto; lia.
  - split; [exact Hsum|]. split; [exact Hex|]. right. auto.
Qed.

Lemma addOrder_outcome (o : Order) (ob : Orderbook) :
  book_inv ob ->
  let r := (addOrder o ob).2 in
  let ob1 := (addOrder o ob).1 in
  (status r = REJECTED /\ executedQty r = 0 /\ fills r = []
   /\ ownBook (side o) ob1 = ownBook (side o) ob)
  \/ (executedQty r = sum_qty (fills r)
      /\ 0 <= executedQty r <= Z.max (quantity o) 0
      /\ ((executedQty r < quantity o
           /\ ownBook (side o) ob1 ≡ₚ set_filled (executedQty r) o :: ownBook (side o) ob
           /\ status r = if decide (0 < executedQty r) then PARTIALLY_FILLED else ACCEPTED)
          \/ (quantity o <= executedQty r
              /\ ownBook (side o) ob1 = ownBook (side o) ob
              /\ status r = ACCEPTED))).
Proof.
  intros Hinv r ob1. subst r ob1. unfold addOrder.
  destruct (wouldSelfTrade o ob) as [wst conflicts] eqn:Hw.
  destruct wst; [|right; now apply placeOrder_outcome].
  assert (Hc : conflicts = conflictingOrders o (oppositeBook (side o) ob))
    by (unfold wouldSelfTrade in Hw; congruence).
  destruct (cancelConflicts_books (side o) conflicts ob) as (_ & Hown & _).
  { subst conflicts. now apply conflictingOrders_side. }
  destruct (stpMode ob); simpl.
  - left. auto.
  - right. rewrite <- Hown. apply placeOrder_outcome. now apply cancelConflicts_inv.
  - left. auto.
Qed.



(** ** Cancellation *)







Lemma cancel_sample_book_well_formed : well_formed cancel_sample_book.
Proof.
  apply (run_well_formed _ emptyBook emptyBook_well_formed), fresh_ids_take.
  unfold sample_ops. solve_fresh_ids.
Qed.



(** ** Open orders *)

Lemma placeOrder_opposite o ob :
  book_inv ob ->
  sublist (okey <$> oppositeBook (side o) (placeOrder o ob).1)
    (okey <$> oppositeBook (side o) ob).
Proof.
  intros Hinv. unfold placeOrder.
  destruct (matchOrder o (side o) ob) as [[ob1 fs] ex] eqn:Hm.
  destruct (matchOrder_spec o (side o) ob ob1 fs ex Hinv Hm)
    as (_ & _ & _ & _ & _ & _ & Hs & _).
  simpl. destruct (isLess ex (quantity o)); simpl; [|exact Hs].
  destruct (side o); simpl; exact Hs.
Qed.

Lemma addOrder_opposite o ob :
  book_inv ob ->
  sublist (okey <$> oppositeBook (side o) (addOrder o ob).1)
    (okey <$> oppositeBook (side o) ob).
Proof.
  intros Hinv. unfold addOrder.
  destruct (wouldSelfTrade o ob) as [wst conflicts] eqn:Hw.
  destruct wst; [|now apply placeOrder_opposite].
  assert (Hc : conflicts = conflictingOrders o (oppositeBook (side o) ob))
    by (unfold wouldSelfTrade in Hw; congruence).
  destruct (cancelConflicts_books (side o) conflicts ob) as (Hopp & _).
  { subst conflicts. now apply conflictingOrders_side. }
  destruct (stpMode ob); simpl.
  - reflexivity.
  - etransitivity; [apply placeOrder_opposite; now apply cancelConflicts_inv|].
    rewrite Hopp. apply remove_all_keys.
  - rewrite Hopp. apply remove_all_keys.
Qed.

Lemma fresh_not_resting o ob z :
  orderId o ∉ all_ids ob -> z ∈ resting ob -> orderId z <> orderId o.
Proof.
  intros Hf Hz He. apply Hf. unfold all_ids. rewrite <- He.
  now apply list_elem_of_fmap_2.
Qed.

Lemma elem_of_getOpenOrders u ob y :
  y ∈ getOpenOrders u ob <-> y ∈ resting ob /\ userId y = u.
Proof.
  unfold getOpenOrders, resting.
  rewrite !elem_of_app, !list_elem_of_In, !filter_In, !bool_decide_eq_true.
  tauto.
Qed.

(** X8. [getOpenOrders] lists exactly the resting orders of the user.  After
    [addOrder] of an order with a fresh identifier, the user's open orders
    contain an order with that identifier exactly when the order was not
    rejected and less than its quantity was executed, and then it is the
    incoming order with [filled = executedQty]. *)
Theorem open_orders_show_what_rests (o : Order) (ob : Orderbook) :
  book_inv ob -> orderId o ∉ all_ids ob ->
  let r := (addOrder o ob).2 in
  let ob1 := (addOrder o ob).1 in
  (forall u y, y ∈ getOpenOrders u ob1 <-> y ∈ resting ob1 /\ userId y = u)
  /\ ((exists y, y ∈ getOpenOrders (userId o) ob1 /\ orderId y = orderId o)
      <-> status r <> REJECTED /\ executedQty r < quantity o)
  /\ (status r <> REJECTED -> executedQty r < quantity o ->
      set_filled (executedQty r) o ∈ getOpenOrders (userId o) ob1).
Proof.
  intros Hinv Hfresh r ob1.
  pose proof (addOrder_outcome o ob Hinv) as Hout.
  pose proof (addOrder_opposite o ob Hinv) as Hopp.
  fold r ob1 in Hout, Hopp.
  assert (Hrest : status r <> REJECTED -> executedQty r < quantity o ->
                  set_filled (executedQty r) o ∈ getOpenOrders (userId o) ob1).
  { intros Hst Hlt. apply elem_of_getOpenOrders. split; [|reflexivity].
    destruct Hout as [(Hr & _)|(_ & _ & [(_ & Hp & _)|(Hge & _)])];
      [contradiction| |lia].
    rewrite (resting_sides (side o)). apply elem_of_app. left.
    rewrite Hp. left. }
  split; [intros u y; apply elem_of_getOpenOrders|]. split; [|exact Hrest].
  split.
  - intros (y & Hy & Hid). apply elem_of_getOpenOrders in Hy as [Hy _].
    rewrite (resting_sides (side o)) in Hy. apply elem_of_app in Hy as [Hy|Hy].
    + assert (Hkeep : ownBook (side o) ob1 = ownBook (side o) ob ->
                      status r <> REJECTED /\ executedQty r < quantity o).
      { intros Hown. rewrite Hown in Hy. exfalso.
        apply (fresh_not_resting o ob y Hfresh); [|exact Hid].
        rewrite (resting_sides (side o)). apply elem_of_app. now left. }
      destruct Hout as [(_ & _ & _ & Hown)|(_ & _ & [(Hlt & _ & Hst)|(_ & Hown & _)])];
        auto.
      split; [|exact Hlt]. rewrite Hst. case_decide; discriminate.
    + exfalso.
      assert (Hk : okey y ∈ okey <$> oppositeBook (side o) ob).
      { eapply elem_of_sublist; [|exact Hopp]. now apply list_elem_of_fmap_2. }
      apply list_elem_of_fmap in Hk as (z & Hz & Hin).
      apply (fresh_not_resting o ob z Hfresh).
      * rewrite (resting_sides (side o)). apply elem_of_app. now right.
      * unfold okey in Hz. injection Hz as _ _ Hz' _ _. congruence.
  - intros [Hst Hlt]. exists (set_filled (executedQty r) o). split; [auto|reflexivity].
Qed.

Lemma open_orders_show_what_rests_witness :
  set_filled 0 resting_sample_order
  ∈ getOpenOrders "7" (addOrder resting_sample_order cancel_sample_book).1.
Proof.
  destruct cancel_sample_book_well_formed as [Hinv _].
  assert (Hfresh : orderId resting_sample_order ∉ all_ids cancel_sample_book)
    by (vm_compute; solve_not_elem).
  destruct (open_orders_show_what_rests resting_sample_order cancel_sample_book Hinv Hfresh)
    as (_ & _ & H).
  assert (Hex : executedQty (addOrder resting_sample_order cancel_sample_book).2 = 0)
    by (vm_compute; reflexivity).
  rewrite Hex in H. apply H.
  - assert (Hst : status (addOrder resting_sample_order cancel_sample_book).2 = ACCEPTED)
      by (vm_compute; reflexivity).
    rewrite Hst. discriminate.
  - simpl. lia.
Defined.

(** ** The depth that is sent out *)

Section SortLevels.
Variable before : Z -> Z -> bool.
Hypothesis before_trans : forall a b c,
  before a b = true -> before b c = true -> before a c = true.
Hypothesis before_total : forall a b, a <> b -> before a b = true \/ before b a = true.




End SortLevels.







(** ** The constructor *)

Lemma side_before_spec ms a b :
  side_before ms a b = true <-> ~ le_side ms (price b) (price a).
Proof.
  destruct ms; simpl; unfold bid_before, ask_before, le_side; dec_unfold; lia.
Qed.

Lemma side_before_false ms a b :
  side_before ms a b = false <-> le_side ms (price b) (price a).
Proof.
  destruct ms; simpl; unfold bid_before, ask_before, le_side; dec_unfold; lia.
Qed.

Lemma insert_stable_perm before x l : insert_stable before x l ≡ₚ x :: l.
Proof.
  induction l as [|y l IH]; simpl; [reflexivity|].
  destruct (before y x); [|reflexivity]. rewrite IH. apply Permutation_swap.
Qed.

Lemma stable_sort_perm before l : stable_sort before l ≡ₚ l.
Proof.
  unfold stable_sort. induction l as [|x l IH]; simpl; [reflexivity|].
  now rewrite insert_stable_perm, IH.
Qed.

Lemma insert_stable_sorted ms x l :
  book_sorted ms l -> book_sorted ms (insert_stable (side_before ms) x l).
Proof.
  unfold book_sorted.
  induction 1 as [|y l Hl IH Hy]; simpl; [repeat constructor|].
  destruct (side_before ms y x) eqn:Hb.
  - constructor; [exact IH|]. rewrite insert_stable_perm. constructor; [|exact Hy].
    apply side_before_spec in Hb. destruct ms; unfold le_side in *; lia.
  - assert (Hxy : le_side ms (price x) (price y)) by now apply side_before_false.
    constructor; [now constructor|]. constructor; [exact Hxy|].
    eapply Forall_impl; [exact Hy|]. intros z Hz. simpl in *.
    destruct ms; unfold le_side in *; lia.
Qed.

Lemma stable_sort_book_sorted ms l : book_sorted ms (stable_sort (side_before ms) l).
Proof.
  unfold stable_sort. induction l as [|x l IH]; simpl; [constructor|].
  now apply insert_stable_sorted.
Qed.

Lemma insert_stable_level ms x l p :
  filter (fun o => price o = p) (insert_stable (side_before ms) x l)
  = filter (fun o => price o = p) (x :: l).
Proof.
  induction l as [|y l IH]; simpl; [reflexivity|].
  destruct (side_before ms y x) eqn:Hb; [|reflexivity].
  rewrite (filter_cons _ y), IH, !filter_cons.
  apply side_before_spec in Hb.
  repeat case_decide; try reflexivity.
  exfalso. apply Hb. destruct ms; unfold le_side; lia.
Qed.

Lemma stable_sort_level ms l p :
  filter (fun o => price o = p) (stable_sort (side_before ms) l)
  = filter (fun o => price o = p) l.
Proof.
  unfold stable_sort. induction l as [|x l IH]; simpl; [reflexivity|].
  rewrite insert_stable_level, !filter_cons. now rewrite IH.
Qed.

(** X10. The constructor sorts both sides from the best price, keeps exactly
    the orders it was given, and keeps the orders of one price in the order
    in which they were given (the sort is stable, so time priority within a
    price survives a restart). *)
Theorem constructor_sorts_stably (base : string) (bs as_ : list Order) (ltid cur : Z)
    (stp : SelfTradePreventionMode) :
  let ob := newOrderbook base bs as_ ltid cur stp in
  book_sorted buy (bids ob) /\ book_sorted sell (asks ob)
  /\ bids ob ≡ₚ bs /\ asks ob ≡ₚ as_
  /\ (forall p, filter (fun o => price o = p) (bids ob) = filter (fun o => price o = p) bs)
  /\ (forall p, filter (fun o => price o = p) (asks ob) = filter (fun o => price o = p) as_).
Proof.
  simpl. split_and!.
  - apply (stable_sort_book_sorted buy).
  - apply (stable_sort_book_sorted sell).
  - apply stable_sort_perm.
  - apply stable_sort_perm.
  - intros p. apply (stable_sort_level buy).
  - intros p. apply (stable_sort_level sell).
Qed.

Lemma level_sum_perm p l l' : l ≡ₚ l' -> level_sum p l = level_sum p l'.
Proof. induction 1; simpl; lia. Qed.




Lemma newOrderbook_inv (base : string) (bs as_ : list Order)
    (ltid cur : Z) (stp : SelfTradePreventionMode) :
  Forall resting_ok bs -> Forall resting_ok as_ ->
  Forall (fun o => side o = buy) bs -> Forall (fun o => side o = sell) as_ ->
  (forall b a, b ∈ bs -> a ∈ as_ -> price b < price a) ->
  book_inv (newOrderbook base bs as_ ltid cur stp).
Proof.
  intros Hb Ha Hsb Hsa Hx.
  pose proof (stable_sort_perm bid_before bs) as Pb.
  pose proof (stable_sort_perm ask_before as_) as Pa.
  pose proof (stable_sort_book_sorted buy bs) as Sb.
  pose proof (stable_sort_book_sorted sell as_) as Sa.
  simpl in Sb, Sa.
  constructor; simpl.
  - exact Sb.
  - exact Sa.
  - apply no_crossing_all; auto. intros b a Hib Hia. apply Hx.
    + now rewrite <- Pb.
    + now rewrite <- Pa.
  - now rewrite Pb.
  - now rewrite Pa.
  - now rewrite Pb.
  - now rewrite Pa.
  - apply rebuildDepth_agrees. now rewrite Pb.
  - apply rebuildDepth_agrees. now rewrite Pa.
Qed.



(** ** Self-trade prevention in the three modes *)



(** X13. Every order that [wouldSelfTrade] reports is a resting order of the
    incoming user on the opposite side whose price crosses; on an opposite
    side sorted from the best price it reports all of them, and answers
    [true] exactly when there is one.  (The scan stops at the first order
    that does not cross, which is why the sorting matters.) *)
Theorem wouldSelfTrade_finds_own_crossing_orders (o : Order) (ob : Orderbook) :
  (forall m, m ∈ (wouldSelfTrade o ob).2 ->
     m ∈ oppositeBook (side o) ob /\ pricesCross (side o) o m = true
     /\ userId m = userId o)
  /\ (book_sorted (otherSide (side o)) (oppositeBook (side o) ob) ->
      (forall m, m ∈ oppositeBook (side o) ob -> pricesCross (side o) o m = true ->
         userId m = userId o -> m ∈ (wouldSelfTrade o ob).2)
      /\ ((wouldSelfTrade o ob).1 = true
          <-> exists m, m ∈ oppositeBook (side o) ob
                /\ pricesCross (side o) o m = true /\ userId m = userId o)).
Proof.
  unfold wouldSelfTrade. simpl. split.
  - intros m. apply conflictingOrders_sound.
  - intros Hs. split; [intros m; now apply conflictingOrders_complete|]. split.
    + intros Hlen.
      destruct (conflictingOrders o (oppositeBook (side o) ob)) as [|m l] eqn:E;
        [discriminate|].
      exists m. apply conflictingOrders_sound. rewrite E. left.
    + intros (m & Hin & Hc & Hu).
      pose proof (conflictingOrders_complete o _ m Hs Hin Hc Hu) as H.
      destruct (conflictingOrders o (oppositeBook (side o) ob)); [inversion H|reflexivity].
Qed.



Lemma two_asks_book_inv stp : book_inv (newOrderbook "TATA" [] two_asks 0 0 stp).
Proof.
  apply newOrderbook_inv.
  - constructor.
  - unfold two_asks. repeat constructor; simpl; lia.
  - constructor.
  - unfold two_asks. repeat constructor.
  - intros b a Hb. inversion Hb.
Qed.


Lemma wouldSelfTrade_finds_own_crossing_orders_witness :
  (wouldSelfTrade own_cross_order both_book).1 = true.
Proof.
  apply (proj2 (wouldSelfTrade_finds_own_crossing_orders own_cross_order both_book)).
  - apply (book_sorted_opposite buy), two_asks_book_inv.
  - exists (mkOrder 1000 5 "a" 0 sell "1"). split; [left|split; reflexivity].
Defined.



(** ** The engine: what every run keeps *)








(** ** Withdrawals and on-ramps *)









(** ** Prices and quantities of the fills *)

Lemma placeOrder_limit o ob :
  book_inv ob ->
  Forall (fun f => 0 < qty f /\ le_side (otherSide (side o)) (fill_price f) (price o))
    (fills (placeOrder o ob).2).
Proof.
  intros Hinv. destruct (placeOrder_spec o ob Hinv) as (_ & _ & Hmk & _).
  eapply Forall_impl; [exact Hmk|].
  intros f (m & _ & Hp & _ & _ & Hc & _ & Hq). split; [lia|].
  rewrite Hp. unfold pricesCross in Hc. unfold le_side.
  destruct (side o); simpl; dec_unfold; lia.
Qed.

(** X21. On a book that satisfies its invariant every fill of [addOrder] has
    a positive quantity and a price within the limit of the incoming
    order: a buy is never filled above its price, a sell never below. *)
Theorem fills_respect_the_limit (o : Order) (ob : Orderbook) :
  book_inv ob ->
  Forall (fun f => 0 < qty f
                   /\ match side o with
                      | buy => fill_price f <= price o
                      | sell => price o <= fill_price f
                      end)
    (fills (addOrder o ob).2).
Proof.
  intros Hinv.
  assert (H : Forall (fun f => 0 < qty f
                        /\ le_side (otherSide (side o)) (fill_price f) (price o))
                (fills (addOrder o ob).2)).
  { unfold addOrder. destruct (wouldSelfTrade o ob) as [[] conflicts];
      [|now apply placeOrder_limit].
    destruct (stpMode ob); simpl; [constructor| |constructor].
    apply placeOrder_limit. now apply cancelConflicts_inv. }
  eapply Forall_impl; [exact H|]. intros f [Hq Hp]. split; [exact Hq|].
  unfold le_side in Hp. destruct (side o); simpl in Hp; lia.
Qed.

Lemma fills_respect_the_limit_witness :
  Forall (fun f => 0 < qty f /\ fill_price f <= 105)
    (fills (addOrder sweep_order sweep_book).2).
Proof.
  assert (Hinv : book_inv sweep_book).
  { apply (run_well_formed _ emptyBook emptyBook_well_formed).
    repeat (split; [vm_compute; solve_not_elem|]). exact I. }
  exact (fills_respect_the_limit sweep_order sweep_book Hinv).
Defined.

(** ** Cancelling through the engine *)








(** ** Placing and cancelling *)











(** ** Balances never go negative on valid input *)







































(** ** Locking funds and settling without an entry *)






(** ** How much is executed *)











(** ** What one fill moves between the two parties *)



(** ** The answer to an order *)












